(** * DS_matrix: a distributional-semantics matrix with a bigram model

    Shallow embedding of [matrix_class.py] (class [DS_matrix]) and the
    properties of its bigram model, sentence encoder and beam-search
    sentence reconstruction.

    Conventions of the embedding.
      - Python floats are exact rationals ([Q]); equality of numbers is
        [Qeq] ([==]).
      - A Python call either returns or raises: [res A].  Loops that may
        not terminate take a [fuel] and answer [OutOfFuel] when it runs out.
      - A [dict] is an association list in insertion order (the order of
        [dict.keys()]); a scipy sparse matrix is its shape and its cell
        function (the three sparse layouts hold the same cells).
      - External collaborators (the tokenizer, the bag-of-words solver, the
        iteration order of a Python [set], the random source of numpy) are
        parameters. *)

From Stdlib Require Import List String Ascii Bool Arith ZArith QArith Lia Lqa.
From Stdlib Require Import Permutation Sorted.
Import ListNotations.

Open Scope string_scope.
Open Scope list_scope.
Open Scope Q_scope.

(* ================================================================= *)
(** ** Python outcomes *)

Inductive exn : Type :=
| Exception (msg : string)      (* [raise Exception(msg)] *)
| AttributeError                (* attribute of [None] *)
| TypeError                     (* [None < None], [None * x], [None[i]] *)
| IndexError                    (* list or matrix index out of range *)
| KeyError                      (* missing dict key *)
| ValueError.                   (* [max([])], [list.remove] miss, bad [p] *)

Inductive res (A : Type) : Type :=
| Ok (a : A)
| Raise (e : exn)
| OutOfFuel.

Arguments Ok {A} a.
Arguments Raise {A} e.
Arguments OutOfFuel {A}.

Definition bind {A B : Type} (c : res A) (k : A -> res B) : res B :=
  match c with
  | Ok a => k a
  | Raise e => Raise e
  | OutOfFuel => OutOfFuel
  end.

Declare Scope py_scope.
Delimit Scope py_scope with py.
Notation "x <- c ;; k" := (bind c (fun x => k))
  (at level 100, c at next level, right associativity) : py_scope.
Notation "' pat <- c ;; k" := (bind c (fun x => match x with pat => k end))
  (at level 100, pat pattern, c at next level, right associativity) : py_scope.
Open Scope py_scope.

(** [[f(x) for x in l]], stopping at the first call that raises. *)
Fixpoint mapM {A B : Type} (f : A -> res B) (l : list A) : res (list B) :=
  match l with
  | [] => Ok []
  | x :: l' => y <- f x ;; ys <- mapM f l' ;; Ok (y :: ys)
  end.

(** [sum(l)] and the product of a list of numbers. *)
Definition Qsum (l : list Q) : Q := fold_left Qplus l 0.
Definition Qprod (l : list Q) : Q := fold_left Qmult l 1.

(* ================================================================= *)
(** ** Dictionaries *)

Section Dict.
Context {K V : Type} (eqb : K -> K -> bool).

Fixpoint dict_get (d : list (K * V)) (k : K) : option V :=
  match d with
  | [] => None
  | (k', v) :: d' => if eqb k k' then Some v else dict_get d' k
  end.

(** [k in d] *)
Definition dict_mem (d : list (K * V)) (k : K) : bool :=
  match dict_get d k with Some _ => true | None => false end.

(** [d[k]] *)
Definition dict_index (d : list (K * V)) (k : K) : res V :=
  match dict_get d k with Some v => Ok v | None => Raise KeyError end.

(** [d[k] = v]: an existing key keeps its place, a new key goes last. *)
Fixpoint dict_set (d : list (K * V)) (k : K) (v : V) : list (K * V) :=
  match d with
  | [] => [(k, v)]
  | (k', v') :: d' =>
      if eqb k k' then (k', v) :: d' else (k', v') :: dict_set d' k v
  end.

Definition dict_keys (d : list (K * V)) : list K := map fst d.
End Dict.

(* ================================================================= *)
(** ** Sparse matrices *)

Record spmatrix : Type := {
  nrows : nat;
  ncols : nat;
  cell : nat -> nat -> Q
}.

(** [M[i, j]] *)
Definition mat_get (M : spmatrix) (i j : nat) : res Q :=
  if (i <? nrows M)%nat && (j <? ncols M)%nat then Ok (cell M i j)
  else Raise IndexError.

(** [M.getrow(i).toarray()], also [M[i].toarray()] *)
Definition getrow (M : spmatrix) (i : nat) : res (list Q) :=
  if (i <? nrows M)%nat then Ok (map (cell M i) (seq 0 (ncols M)))
  else Raise IndexError.

(** [M.getcol(j).toarray().flatten()] *)
Definition getcol (M : spmatrix) (j : nat) : res (list Q) :=
  if (j <? ncols M)%nat then Ok (map (fun i => cell M i j) (seq 0 (nrows M)))
  else Raise IndexError.

(** [M.getcol(j).sum()] on a column that exists *)
Definition colsum (M : spmatrix) (j : nat) : Q :=
  Qsum (map (fun i => cell M i j) (seq 0 (nrows M))).

(** [M[i, j] = v] *)
Definition set_cell (M : spmatrix) (i j : nat) (v : Q) : spmatrix :=
  {| nrows := nrows M; ncols := ncols M;
     cell := fun r c => if (r =? i)%nat && (c =? j)%nat then v else cell M r c |}.

(** [M[i] = row], where [row] is a row of another matrix *)
Definition set_row (M : spmatrix) (i : nat) (row : nat -> Q) : spmatrix :=
  {| nrows := nrows M; ncols := ncols M;
     cell := fun r c => if (r =? i)%nat then row c else cell M r c |}.

(** [scipy.sparse.lil_matrix(shape)] *)
Definition lil_matrix (shape : nat * nat) : spmatrix :=
  {| nrows := fst shape; ncols := snd shape; cell := fun _ _ => 0 |}.

(* ================================================================= *)
(** ** The class [DS_matrix] *)

Definition START : string := "START$_".
Definition END : string := "END$_".

Record DS_matrix : Type := {
  matrix : option spmatrix;            (* [None] for [DS_matrix()] *)
  vocab_order : list (string * nat);
  unigram_probs : list (string * Q)
}.

(** [DS_matrix()] *)
Definition empty_DS_matrix : DS_matrix :=
  {| matrix := None; vocab_order := []; unigram_probs := [] |}.

(** [self.matrix[...]]: subscripting [None] is a [TypeError]. *)
Definition matrix_subscript (m : DS_matrix) : res spmatrix :=
  match matrix m with Some M => Ok M | None => Raise TypeError end.

(** [self.matrix.attr]: an attribute of [None] is an [AttributeError]. *)
Definition matrix_attr (m : DS_matrix) : res spmatrix :=
  match matrix m with Some M => Ok M | None => Raise AttributeError end.

Definition in_vocab (m : DS_matrix) (word : string) : bool :=
  dict_mem String.eqb (vocab_order m) word.

Definition get_vector (m : DS_matrix) (word : string) : res (list Q) :=
  if negb (in_vocab m word) then Raise (Exception "Word not in matrix")
  else
    pos <- dict_index String.eqb (vocab_order m) word ;;
    M <- matrix_subscript m ;;
    getrow M pos.

Definition contains (m : DS_matrix) (word : string) : bool := in_vocab m word.

Definition get_bigram_prob (m : DS_matrix) (word prev_word : string) : res Q :=
  if negb (in_vocab m word) then Raise (Exception "Word not in matrix")
  else if negb (in_vocab m prev_word)
  then Raise (Exception "Previous word not in matrix")
  else
    prev_pos <- dict_index String.eqb (vocab_order m) prev_word ;;
    pos <- dict_index String.eqb (vocab_order m) word ;;
    M <- matrix_subscript m ;;
    mat_get M pos prev_pos.

Definition get_words (m : DS_matrix) : list string :=
  dict_keys (vocab_order m).

Definition get_unigram_prob (m : DS_matrix) (word : string) : res Q :=
  dict_index String.eqb (unigram_probs m) word.

(* ----------------------------------------------------------------- *)
(** *** [get_sentence_prob] *)

(** The [for word in sentence] loop, on the pair [(prob, prev_word)]. *)
Fixpoint sentence_prob_loop (m : DS_matrix) (sentence : list string)
    (prob : Q) (prev_word : string) : res (Q * string) :=
  match sentence with
  | [] => Ok (prob, prev_word)
  | word :: rest =>
      if negb (in_vocab m word) then sentence_prob_loop m rest prob prev_word
      else
        p <- get_bigram_prob m word prev_word ;;
        sentence_prob_loop m rest (prob * p) word
  end.

Definition get_sentence_prob (m : DS_matrix) (sentence : list string) : res Q :=
  '(prob, prev_word) <- sentence_prob_loop m sentence 1 START ;;
  p <- get_bigram_prob m END prev_word ;;
  Ok (prob * p).

(** The specification's reading of the sentence probability: the bigram
    probabilities of the adjacent pairs of a word sequence, in order. *)
Fixpoint adjacent_bigrams (m : DS_matrix) (prev_word : string)
    (ws : list string) : res (list Q) :=
  match ws with
  | [] => Ok []
  | word :: rest =>
      p <- get_bigram_prob m word prev_word ;;
      ps <- adjacent_bigrams m word rest ;;
      Ok (p :: ps)
  end.

(** ... and their product over [START], the known words, [END]. *)
Definition bigram_product (m : DS_matrix) (ws : list string) : res Q :=
  ps <- adjacent_bigrams m START (ws ++ [END]) ;;
  Ok (Qprod ps).

(* ----------------------------------------------------------------- *)
(** *** [encode_sentence] *)

(** [str.lower()] on ASCII text. *)
Definition lower_ascii (c : ascii) : ascii :=
  let n := nat_of_ascii c in
  if (65 <=? n)%nat && (n <=? 90)%nat then ascii_of_nat (n + 32) else c.

Fixpoint lower (s : string) : string :=
  match s with
  | EmptyString => EmptyString
  | String c s' => String (lower_ascii c) (lower s')
  end.

(** Element-wise sum of two arrays of one shape. *)
Fixpoint vec_add (u v : list Q) : list Q :=
  match u, v with
  | x :: u', y :: v' => (x + y) :: vec_add u' v'
  | _, _ => []
  end.

(** [np.sum(vectors, axis=0)] for a non-empty list of arrays. *)
Definition np_sum_axis0 (first : list Q) (others : list (list Q)) : list Q :=
  fold_left vec_add others first.

(** [np.zeros((1, n))] *)
Definition np_zeros (n : nat) : list Q := repeat 0 n.

(** The loop collecting the vectors of the known tokens. *)
Fixpoint collect_vectors (m : DS_matrix) (words : list string)
    (vectors : list (list Q)) : res (list (list Q)) :=
  match words with
  | [] => Ok vectors
  | word :: rest =>
      if in_vocab m (lower word)
      then v <- get_vector m (lower word) ;;
           collect_vectors m rest (vectors ++ [v])
      else collect_vectors m rest vectors
  end.

Section Encoder.
(** [nltk.word_tokenize] *)
Variable word_tokenize : string -> list string.

Definition encode_sentence (m : DS_matrix) (sent : string) : res (list Q) :=
  let words := word_tokenize sent in
  vectors <- collect_vectors m words [] ;;
  match vectors with
  | [] => M <- matrix_attr m ;; Ok (np_zeros (ncols M))
  | v :: vs => Ok (np_sum_axis0 v vs)
  end.
End Encoder.

(* ----------------------------------------------------------------- *)
(** *** [generate_bigram_sentence] *)

(** [l[i]] *)
Definition list_index {A : Type} (l : list A) (i : nat) : res A :=
  match nth_error l i with Some x => Ok x | None => Raise IndexError end.

(** [np.random.choice(range(n), p=p)] draws one uniform number [u] of
    [[0, 1)] and inverts the cumulative distribution of [p]:
    [cdf = p.cumsum(); cdf /= cdf[-1]; cdf.searchsorted(u, side='right')],
    after checking the size, the signs and the sum of [p]. *)
Fixpoint cumsum (acc : Q) (p : list Q) : list Q :=
  match p with
  | [] => []
  | x :: p' => (acc + x) :: cumsum (acc + x) p'
  end.

(** On a sorted array: the index of the first entry greater than [u]. *)
Fixpoint searchsorted_right (cdf : list Q) (u : Q) : nat :=
  match cdf with
  | [] => 0
  | c :: cdf' => if Qle_bool c u then S (searchsorted_right cdf' u) else 0
  end.

Definition random_choice (n : nat) (p : list Q) (u : Q) : res nat :=
  if (n =? 0)%nat then Raise ValueError
  else if negb (List.length p =? n)%nat then Raise ValueError
  else if existsb (fun x => negb (Qle_bool 0 x)) p then Raise ValueError
  else if negb (Qeq_bool (Qsum p) 1) then Raise ValueError
  else
    let cdf := cumsum 0 p in
    let total := last cdf 1 in
    Ok (searchsorted_right (map (fun c => c / total) cdf) u).

(** The inner loop [while word == "START$_"], one draw per turn. *)
Fixpoint reroll (words : list string) (prob_list : list Q) (word : string)
    (draws : list Q) {struct draws} : res (string * list Q) :=
  if String.eqb word START then
    match draws with
    | [] => OutOfFuel
    | u :: draws' =>
        index <- random_choice (List.length words) prob_list u ;;
        word' <- list_index words index ;;
        reroll words prob_list word' draws'
    end
  else Ok (word, draws).

(** One sampling step of the body of [while word != "END$_"]: the next
    word and the draws that are left. *)
Definition sample_next (m : DS_matrix) (words : list string) (word : string)
    (draws : list Q) : res (string * list Q) :=
  pos <- dict_index String.eqb (vocab_order m) word ;;
  M <- matrix_attr m ;;
  prob_list <- getcol M pos ;;
  if Qeq_bool (Qsum prob_list) 0 then
    prob_list <- mapM (get_unigram_prob m) words ;;
    match draws with
    | [] => OutOfFuel
    | u :: draws' =>
        index <- random_choice (List.length words) prob_list u ;;
        word' <- list_index words index ;;
        reroll words prob_list word' draws'
    end
  else
    match draws with
    | [] => OutOfFuel
    | u :: draws' =>
        index <- random_choice (List.length words) prob_list u ;;
        word' <- list_index words index ;;
        Ok (word', draws')
    end.

Fixpoint generate_loop (fuel : nat) (m : DS_matrix) (words : list string)
    (word : string) (sentence : list string) (draws : list Q)
    : res (list string) :=
  if String.eqb word END then Ok sentence
  else
    match fuel with
    | O => OutOfFuel
    | S fuel' =>
        '(word', draws') <- sample_next m words word draws ;;
        if String.eqb word' END then Ok sentence
        else generate_loop fuel' m words word' (sentence ++ [word']) draws'
    end.

(** [draws] is the sequence of uniform numbers the random source hands
    out; every turn of the loop uses at least one, so the fuel never runs
    out before the draws do. *)
Definition generate_bigram_sentence (m : DS_matrix) (start_word : string)
    (draws : list Q) : res (list string) :=
  let start_word :=
    if negb (String.eqb start_word START) && negb (String.eqb start_word END)
    then lower start_word else start_word in
  if negb (in_vocab m start_word)
  then Raise (Exception "given start_word not in matrix")
  else generate_loop (S (List.length draws)) m (get_words m) start_word [] draws.



(* ----------------------------------------------------------------- *)
(** *** [less_words_matrix] *)

(** [M.nonzero()] on a column-major matrix: the coordinates of the
    non-zero cells, column by column, rows ascending. *)
Definition nonzero_rows (M : spmatrix) (c : nat) : list nat :=
  filter (fun r => negb (Qeq_bool (cell M r c) 0)) (seq 0 (nrows M)).

Definition nonzero (M : spmatrix) : list (nat * nat) :=
  flat_map (fun c => map (fun r => (r, c)) (nonzero_rows M c))
           (seq 0 (ncols M)).

(** The loop filling [entry_dict]: column -> rows of its non-zero cells. *)
Fixpoint build_entry_dict (nz : list (nat * nat))
    (entry_dict : list (nat * list nat)) : list (nat * list nat) :=
  match nz with
  | [] => entry_dict
  | (row, col) :: rest =>
      build_entry_dict rest
        (match dict_get Nat.eqb entry_dict col with
         | Some rows => dict_set Nat.eqb entry_dict col (rows ++ [row])
         | None => dict_set Nat.eqb entry_dict col [row]
         end)
  end.

(** [for row in rows: M[row, col] /= prob_sum].  In [Q] a division by
    zero is zero while numpy yields [inf] or [nan]; the properties below
    are stated where [prob_sum] is not zero. *)
Definition divide_cells (M : spmatrix) (col : nat) (prob_sum : Q)
    (rows : list nat) : spmatrix :=
  fold_left (fun M row => set_cell M row col (cell M row col / prob_sum))
            rows M.

(** [for i, col in enumerate(columns)]: one turn per non-zero cell. *)
Fixpoint normalize_columns (columns : list nat)
    (entry_dict : list (nat * list nat)) (M : spmatrix) : res spmatrix :=
  match columns with
  | [] => Ok M
  | col :: rest =>
      let prob_sum := colsum M col in
      rows <- dict_index Nat.eqb entry_dict col ;;
      normalize_columns rest entry_dict (divide_cells M col prob_sum rows)
  end.

Definition normalize_matrix (M : spmatrix) : res spmatrix :=
  let nz := nonzero M in
  let entry_dict := build_entry_dict nz [] in
  normalize_columns (map snd nz) entry_dict M.

(** The rows listed with column [c] in a list of coordinates. *)
Definition rows_of (c : nat) (nz : list (nat * nat)) : list nat :=
  map fst (filter (fun rc => (snd rc =? c)%nat) nz).

(** [M] has the shape of [M0], zeros where [M0] has zeros and positive
    cells where [M0] has non-zero cells. *)
Record keeps_pattern (M0 M : spmatrix) : Prop := {
  kp_rows : nrows M = nrows M0;
  kp_cols : ncols M = ncols M0;
  kp_zero : forall r c, (r < nrows M0)%nat -> ~ In r (nonzero_rows M0 c) ->
                        cell M r c == 0;
  kp_pos : forall r c, In r (nonzero_rows M0 c) -> 0 < cell M r c
}.

(** [for i, word in enumerate(word_set)], on the fields of [new_matrix]. *)
Fixpoint copy_rows (self : DS_matrix) (selfM : spmatrix)
    (word_set : list string) (i : nat) (new_matrix : DS_matrix)
    (newM : spmatrix) : res (DS_matrix * spmatrix) :=
  match word_set with
  | [] => Ok (new_matrix, newM)
  | word :: rest =>
      let new_vocab := dict_set String.eqb (vocab_order new_matrix) word i in
      u <- dict_index String.eqb (unigram_probs self) word ;;
      let new_unigrams :=
        dict_set String.eqb (unigram_probs new_matrix) word u in
      pos <- dict_index String.eqb (vocab_order self) word ;;
      if (pos <? nrows selfM)%nat then
        copy_rows self selfM rest (S i)
          {| matrix := matrix new_matrix; vocab_order := new_vocab;
             unigram_probs := new_unigrams |}
          (set_row newM i (cell selfM pos))
      else Raise IndexError
  end.

Section Sets.
(** The order in which Python iterates over the [set] obtained by
    adding the elements of a list one after the other. *)
Variable set_iter : list string -> list string.

Definition less_words_matrix (self : DS_matrix) (word_set : list string)
    (normalize : bool) : res DS_matrix :=
  let new_matrix := empty_DS_matrix in
  let contained_words := filter (in_vocab self) word_set in
  let word_set := contained_words in
  let word_set :=
    if in_vocab self START then word_set ++ [START] else word_set in
  let word_set :=
    if in_vocab self END then word_set ++ [END] else word_set in
  let word_set := set_iter word_set in
  selfM <- matrix_attr self ;;
  let new_shape := (List.length word_set, ncols selfM) in
  '(new_matrix, newM) <-
    copy_rows self selfM word_set 0 new_matrix (lil_matrix new_shape) ;;
  newM <- (if normalize then normalize_matrix newM else Ok newM) ;;
  Ok {| matrix := Some newM; vocab_order := vocab_order new_matrix;
        unigram_probs := unigram_probs new_matrix |}.
End Sets.

(* ----------------------------------------------------------------- *)
(** *** [reconstruct_sent] *)

(** The values a joint probability can hold: a float, or [None]. *)
Inductive pyval : Type :=
| PyNone
| PyFloat (q : Q).

(** [a > b], [a < b], [a * b], [a == b] *)
Definition py_gt (a b : pyval) : res bool :=
  match a, b with
  | PyFloat x, PyFloat y => Ok (negb (Qle_bool x y))
  | _, _ => Raise TypeError
  end.

Definition py_lt (a b : pyval) : res bool :=
  match a, b with
  | PyFloat x, PyFloat y => Ok (negb (Qle_bool y x))
  | _, _ => Raise TypeError
  end.

Definition py_mul (a b : pyval) : res pyval :=
  match a, b with
  | PyFloat x, PyFloat y => Ok (PyFloat (x * y))
  | _, _ => Raise TypeError
  end.

Definition py_eqb (a b : pyval) : bool :=
  match a, b with
  | PyNone, PyNone => true
  | PyFloat x, PyFloat y => Qeq_bool x y
  | _, _ => false
  end.

(** [max(l, key=key)] and [min(l, key=key)]: the running best is replaced
    by an item whose key is strictly better, so the first best item wins. *)
Fixpoint py_best_from {A : Type} (better : pyval -> pyval -> res bool)
    (key : A -> res pyval) (best : A) (best_key : pyval) (l : list A)
    : res A :=
  match l with
  | [] => Ok best
  | x :: l' =>
      k <- key x ;;
      b <- better k best_key ;;
      if b then py_best_from better key x k l'
      else py_best_from better key best best_key l'
  end.

Definition py_best {A : Type} (better : pyval -> pyval -> res bool)
    (key : A -> res pyval) (l : list A) : res A :=
  match l with
  | [] => Raise ValueError
  | x :: l' => k <- key x ;; py_best_from better key x k l'
  end.

Definition py_max {A : Type} := @py_best A py_gt.
Definition py_min {A : Type} := @py_best A py_lt.

(** A partial sequence with its joint probability, and [lambda t: t[1]]. *)
Definition entry : Type := (list string * pyval)%type.
Definition entry_key (t : entry) : res pyval := Ok (snd t).

Definition entry_eqb (s t : entry) : bool :=
  (if list_eq_dec string_dec (fst s) (fst t) then true else false)
  && py_eqb (snd s) (snd t).

(** [l.remove(x)]: the first item equal to [x] goes. *)
Fixpoint list_remove {A : Type} (eqb : A -> A -> bool) (l : list A) (x : A)
    : res (list A) :=
  match l with
  | [] => Raise ValueError
  | y :: l' => if eqb y x then Ok l'
               else l'' <- list_remove eqb l' x ;; Ok (y :: l'')
  end.

(** [words_left]: a copy of [words] without one occurrence of each word
    of [word_list]. *)
Fixpoint remove_first (w : string) (l : list string) : list string :=
  match l with
  | [] => []
  | x :: l' => if String.eqb x w then l' else x :: remove_first w l'
  end.

Definition remove_used (words word_list : list string) : list string :=
  fold_left (fun words_left w => remove_first w words_left) word_list words.

(** [word_list[-1]] *)
Definition list_last {A : Type} (l : list A) : res A :=
  match rev l with x :: _ => Ok x | [] => Raise IndexError end.

(** [expansions.sort(key=(lambda t: t[1]), reverse=True)]: stable,
    descending. *)
Fixpoint insert_desc (x : string * Q) (l : list (string * Q))
    : list (string * Q) :=
  match l with
  | [] => [x]
  | y :: l' => if Qle_bool (snd y) (snd x) then x :: y :: l'
               else y :: insert_desc x l'
  end.

Definition sort_desc (l : list (string * Q)) : list (string * Q) :=
  fold_right insert_desc [] l.

(** [l[:k]] for an integer [k] of either sign. *)
Definition slice_to {A : Type} (l : list A) (k : Z) : list A :=
  if (0 <=? k)%Z then firstn (Z.to_nat k) l
  else firstn (Z.to_nat (Z.of_nat (List.length l) + k)) l.

(** [queue.append(entry)] followed by the pruning of a queue longer than
    10000: the entry of least probability among the first 1000 goes. *)
Definition push_pruned (queue : list entry) (new_entry : entry)
    : res (list entry) :=
  let queue := queue ++ [new_entry] in
  let len_queue := Z.of_nat (List.length queue) in
  if (len_queue >? 10000)%Z then
    remove_el <- py_min entry_key (firstn 1000 queue) ;;
    list_remove entry_eqb queue remove_el
  else Ok queue.

(** An entry whose joint probability is a number, and a list without
    its item of index [i]. *)
Definition numeric (t : entry) : Prop := exists q, snd t = PyFloat q.

Definition remove_at {A : Type} (i : nat) (l : list A) : list A :=
  firstn i l ++ skipn (S i) l.

(** [r], of probability [rq], is at index [ri] the first entry of least
    probability of [l]. *)
Definition least_in (l : list entry) (ri : nat) (r : entry) (rq : Q) : Prop :=
  nth_error l ri = Some r
  /\ snd r = PyFloat rq
  /\ (forall j t q, nth_error l j = Some t -> snd t = PyFloat q -> rq <= q)
  /\ (forall j t q, (j < ri)%nat -> nth_error l j = Some t ->
                    snd t = PyFloat q -> rq < q).

(** [for w, p in best_expansions] *)
Fixpoint push_expansions (word_list : list string) (prob_thus_far : pyval)
    (best_expansions : list (string * Q)) (queue : list entry)
    : res (list entry) :=
  match best_expansions with
  | [] => Ok queue
  | (w, p) :: rest =>
      let new_word_list := word_list ++ [w] in
      new_prob <- py_mul prob_thus_far (PyFloat p) ;;
      queue <- push_pruned queue (new_word_list, new_prob) ;;
      push_expansions word_list prob_thus_far rest queue
  end.

(** [def start_word_prob(w): self.get_bigram_prob(w, "START$_")]: the
    body has no [return], the call answers [None]. *)
Definition start_word_prob (m : DS_matrix) (w : string) : res pyval :=
  _ <- get_bigram_prob m w START ;;
  Ok PyNone.

(** Lines 373-376: the first word and the initial queue. *)
Definition seed_queue (m : DS_matrix) (words : list string)
    : res (list entry) :=
  first_word <- py_max (start_word_prob m) words ;;
  prob <- start_word_prob m first_word ;;
  Ok [([first_word], prob)].

(** [' '.join(l)] *)
Definition join_spaces (l : list string) : string := String.concat " " l.

Section Reconstruct.
Variable word_tokenize : string -> list string.
(** [s2b.greedy_search(self, target)], of which only the bag of words
    is used. *)
Variable greedy_search : DS_matrix -> list Q -> res (list string).
Variable set_iter : list string -> list string.

(** [while queue != []] *)
Fixpoint beam_loop (fuel : nat) (m : DS_matrix) (words : list string)
    (beam_width : Z) (queue : list entry) (solutions : list entry)
    : res (list entry) :=
  match queue with
  | [] => Ok solutions
  | (word_list, prob_thus_far) :: queue =>
      match fuel with
      | O => OutOfFuel
      | S fuel' =>
          let words_left := remove_used words word_list in
          last_word <- list_last word_list ;;
          if (Z.of_nat (List.length word_list)
              <? Z.of_nat (List.length words) - 1)%Z
          then
            expansions <-
              mapM (fun w => prob <- get_bigram_prob m w last_word ;;
                             Ok (w, prob))
                   (set_iter words_left) ;;
            let best_expansions :=
              if (Z.of_nat (List.length expansions) <? beam_width)%Z
              then expansions
              else slice_to (sort_desc expansions) beam_width in
            queue <-
              push_expansions word_list prob_thus_far best_expansions queue ;;
            beam_loop fuel' m words beam_width queue solutions
          else
            w <- list_index words_left 0 ;;
            p <- get_bigram_prob m w last_word ;;
            new_prob <- py_mul prob_thus_far (PyFloat p) ;;
            p_end <- get_bigram_prob m END w ;;
            new_prob <- py_mul new_prob (PyFloat p_end) ;;
            let sent := word_list ++ [w] in
            beam_loop fuel' m words beam_width queue
                      (solutions ++ [(sent, new_prob)])
      end
  end.

(** The body of [reconstruct_sent] once the bag of words is known. *)
Definition order_words (fuel : nat) (m : DS_matrix) (words : list string)
    (beam_width : Z) : res string :=
  match words with
  | [] => Ok ""
  | _ :: _ =>
      queue <- seed_queue m words ;;
      solutions <- beam_loop fuel m words beam_width queue [] ;;
      '(best_sent, _) <- py_max entry_key solutions ;;
      Ok (join_spaces best_sent)
  end.

Definition reconstruct_sent (fuel : nat) (m : DS_matrix) (sent : string)
    (beam_width : Z) : res string :=
  target <- encode_sentence word_tokenize m sent ;;
  words <- greedy_search m target ;;
  _ <- matrix_attr m ;;                       (* [self.todok()] *)
  order_words fuel m words beam_width.
End Reconstruct.

(* ----------------------------------------------------------------- *)
(** *** [pmi_matrix] *)

(** [M[i, j] = v] on a [lil_matrix], with its bounds check. *)
Definition mat_set (M : spmatrix) (i j : nat) (v : Q) : res spmatrix :=
  if (i <? nrows M)%nat && (j <? ncols M)%nat then Ok (set_cell M i j v)
  else Raise IndexError.

Section PMI.
(** [math.log(x, 2)] *)
Variable log2 : Q -> Q.

(** The body of the inner loop after the lookups: [inner], [pmi] and
    [ppmi = max(pmi, 0)].  A rational is neither [inf] nor [nan], the
    last test of the source never fires. *)
Definition ppmi_value (pcw pw : Q) : Q :=
  let inner := if Qeq_bool pw 0 then 0 else pcw / pw in
  if negb (Qle_bool inner 0) then
    let pmi := log2 inner in
    if negb (Qle_bool 0 pmi) then 0 else pmi
  else 0.

(** [for word2 in self.vocab_order] *)
Fixpoint pmi_inner (self : DS_matrix) (probsc : list Q) (posc : nat)
    (words : list string) (pmi_matrix : spmatrix) : res spmatrix :=
  match words with
  | [] => Ok pmi_matrix
  | word2 :: rest =>
      pw <- dict_index String.eqb (unigram_probs self) word2 ;;
      posw <- dict_index String.eqb (vocab_order self) word2 ;;
      pcw <- list_index probsc posw ;;
      let ppmi := ppmi_value pcw pw in
      pmi_matrix <- mat_set pmi_matrix posc posw ppmi ;;
      pmi_inner self probsc posc rest pmi_matrix
  end.

(** [for word1 in self.vocab_order] *)
Fixpoint pmi_outer (self : DS_matrix) (M : spmatrix) (words1 : list string)
    (pmi_matrix : spmatrix) : res spmatrix :=
  match words1 with
  | [] => Ok pmi_matrix
  | word1 :: rest =>
      posc <- dict_index String.eqb (vocab_order self) word1 ;;
      probsc <- getcol M posc ;;
      pmi_matrix <- pmi_inner self probsc posc (get_words self) pmi_matrix ;;
      pmi_outer self M rest pmi_matrix
  end.

(** The call writes a file; the result here is the triple it pickles,
    as the model that [DS_matrix(new_matrix_path)] loads back. *)
Definition pmi_matrix (self : DS_matrix) : res DS_matrix :=
  M <- matrix_attr self ;;
  let shape := (nrows M, ncols M) in
  let pmi_matrix := lil_matrix shape in
  pmi_matrix <- pmi_outer self M (get_words self) pmi_matrix ;;
  Ok {| matrix := Some pmi_matrix; vocab_order := vocab_order self;
        unigram_probs := unigram_probs self |}.
End PMI.

(* ----------------------------------------------------------------- *)
(** *** Small models *)

Definition cell_of_rows (rows : list (list Q)) (r c : nat) : Q :=
  nth c (nth r rows []) 0.

(** [START$_, a, b, END$_] with [P(a|START)=3/5 > P(b|START)=2/5] and
    [P(b|a)=7/10 > P(a|b)=1/5]; the column of [END$_] is empty. *)
Definition ab_model : DS_matrix :=
  {| matrix := Some {| nrows := 4; ncols := 4;
                       cell := cell_of_rows
                                 [ [0;    0;     0;    0];
                                   [3#5;  0;     1#5;  0];
                                   [2#5;  7#10;  0;    0];
                                   [0;    3#10;  4#5;  0] ] |};
     vocab_order := [(START, 0%nat); ("a", 1%nat); ("b", 2%nat); (END, 3%nat)];
     unigram_probs := [(START, 1#4); ("a", 1#4); ("b", 1#4); (END, 1#4)] |}.


(** A queue of 10000 entries, and one more entry. *)
Definition full_queue : list entry :=
  repeat (["a"], PyFloat 1) (Z.to_nat 10000).

Definition late_entry : entry := (["a"; "b"], PyFloat (1#2)).

(** A tokenizer on single spaces, a solver that answers a fixed bag, and
    the set order of first insertion. *)
Fixpoint split_spaces (cur : string) (s : string) : list string :=
  match s with
  | EmptyString => if String.eqb cur "" then [] else [cur]
  | String c s' =>
      if Ascii.eqb c " "%char
      then (if String.eqb cur "" then [] else [cur]) ++ split_spaces "" s'
      else split_spaces (cur ++ String c EmptyString)%string s'
  end.

Definition space_tokenize (s : string) : list string := split_spaces "" s.

Definition fixed_bag (bag : list string) (m : DS_matrix) (target : list Q)
    : res (list string) := Ok bag.

Definition insertion_order (l : list string) : list string :=
  rev (nodup string_dec (rev l)).

(** [ab_model] reduced to the word [a] (and the two sentinels), with
    normalized columns. *)
Definition reduced_ab : DS_matrix :=
  match less_words_matrix insertion_order ab_model ["a"; "q"] true with
  | Ok new_matrix => new_matrix
  | _ => empty_DS_matrix
  end.

(* ----------------------------------------------------------------- *)
(** *** Reference functions for the further properties *)

(** The exceptions of the built-in operations, as opposed to the
    [Exception]s the class raises itself. *)
Definition builtin_error (e : exn) : Prop :=
  e = KeyError \/ e = AttributeError \/ e = IndexError \/ e = ValueError
  \/ e = TypeError.

(** The start word as [generate_bigram_sentence] looks it up: lower-cased
    unless it is a sentinel. *)
Definition start_word_key (start_word : string) : string :=
  if negb (String.eqb start_word START) && negb (String.eqb start_word END)
  then lower start_word else start_word.

(** The words [less_words_matrix] puts into its set, in the order of
    their insertion: the known words of [word_set], then the sentinels
    the model knows. *)
Definition retained_words (self : DS_matrix) (word_set : list string)
    : list string :=
  let ws := filter (in_vocab self) word_set in
  let ws := if in_vocab self START then ws ++ [START] else ws in
  if in_vocab self END then ws ++ [END] else ws.

(** [ab_model] reduced to the word [b], without normalization. *)
Definition reduced_b : DS_matrix :=
  match less_words_matrix insertion_order ab_model ["b"] false with
  | Ok new_matrix => new_matrix
  | _ => empty_DS_matrix
  end.

(** Lines 398-402: the expansions that are kept. *)
Definition select_best (expansions : list (string * Q)) (beam_width : Z)
    : list (string * Q) :=
  if (Z.of_nat (List.length expansions) <? beam_width)%Z
  then expansions
  else slice_to (sort_desc expansions) beam_width.

(** [y] may come after [x] in a list sorted by descending probability. *)
Definition desc (x y : string * Q) : Prop := snd y <= snd x.

(** A partial sequence made of words of the bag, each used no more often
    than the bag holds it. *)
Definition partial_ordering (words : list string) (t : entry) : Prop :=
  exists rest, Permutation words (fst t ++ rest).

(** The cell [(r, c)] of [P] is the positive PMI of the cell [(c, r)] of
    [M] and of the unigram probability of a word of row number [c]. *)
Definition ppmi_cell (log2 : Q -> Q) (self : DS_matrix) (M P : spmatrix)
    (r c : nat) : Prop :=
  exists word2 pw,
    dict_get String.eqb (vocab_order self) word2 = Some c
    /\ dict_get String.eqb (unigram_probs self) word2 = Some pw
    /\ cell P r c = ppmi_value log2 (cell M c r) pw.

(** A stand-in for the binary logarithm on the sample points used
    below: it is positive above 1 and negative below. *)
Definition sample_log2 (x : Q) : Q := x - 1.

(** A square model with a unigram table, for [pmi_matrix]. *)
Definition pmi_model : DS_matrix :=
  {| matrix := Some {| nrows := 2; ncols := 2;
                       cell := cell_of_rows [ [1#2; 1#4]; [1#2; 3#4] ] |};
     vocab_order := [("x", 0%nat); ("y", 1%nat)];
     unigram_probs := [("x", 1#4); ("y", 0)] |}.

Definition pmi_of_model : DS_matrix :=
  match pmi_matrix sample_log2 pmi_model with
  | Ok new_matrix => new_matrix
  | _ => empty_DS_matrix
  end.

Definition pmi_of_model_cells : spmatrix :=
  match matrix pmi_of_model with
  | Some M => M
  | None => lil_matrix (0%nat, 0%nat)
  end.

(** The matrix of [reduced_ab]. *)
Definition reduced_ab_cells : spmatrix :=
  match matrix reduced_ab with
  | Some M => M
  | None => lil_matrix (0%nat, 0%nat)
  end.

(** The matrix of [ab_model]. *)
Definition ab_cells : spmatrix :=
  {| nrows := 4; ncols := 4;
     cell := cell_of_rows
               [ [0;    0;     0;    0];
                 [3#5;  0;     1#5;  0];
                 [2#5;  7#10;  0;    0];
                 [0;    3#10;  4#5;  0] ] |}.

(** The row numbers of the known tokens of a text, in order. *)
Definition token_rows (m : DS_matrix) (tokens : list string) : list nat :=
  flat_map (fun t => match dict_get String.eqb (vocab_order m) (lower t) with
                     | Some pos => [pos]
                     | None => []
                     end) tokens.

(** Coordinate by coordinate, the sum of the rows [ps] of a matrix. *)
Definition row_sum (M : spmatrix) (ps : list nat) : list Q :=
  map (fun c => Qsum (map (fun p => cell M p c) ps)) (seq 0 (ncols M)).

(* ================================================================= *)
(** * Properties *)

Lemma dict_mem_get {V : Type} (d : list (string * V)) (k : string) :
  dict_mem String.eqb d k = true <-> exists v, dict_get String.eqb d k = Some v.
Proof.
  unfold dict_mem. destruct (dict_get String.eqb d k) as [v|].
  - split; [eauto | reflexivity].
  - split; [discriminate | intros [v Hv]; discriminate].
Qed.

Lemma dict_mem_In {V : Type} (d : list (string * V)) (k : string) :
  dict_mem String.eqb d k = true <-> In k (dict_keys d).
Proof.
  unfold dict_mem, dict_keys. induction d as [|[k' v] d IH]; simpl.
  - split; [discriminate | tauto].
  - destruct (String.eqb_spec k k') as [->|Hne].
    + split; auto.
    + rewrite IH. split; [tauto | intros [H|H]; [congruence | exact H]].
Qed.

(* ----------------------------------------------------------------- *)
(** ** [get_bigram_prob] *)

Definition unknown_word_error (e : exn) : Prop :=
  e = Exception "Word not in matrix"
  \/ e = Exception "Previous word not in matrix".

Lemma mat_get_not_unknown (M : spmatrix) (i j : nat) (e : exn) :
  mat_get M i j = Raise e -> e = IndexError.
Proof.
  unfold mat_get. destruct (_ && _); [discriminate | congruence].
Qed.

(** C6. [get_bigram_prob word prev_word] raises an unknown-word exception
    exactly when [word] or [prev_word] is missing from [vocab_order];
    when both are present, at rows [pos] and [prev_pos], the call is the
    plain read of the cell [(pos, prev_pos)] of the matrix, so that a
    stored zero comes back as zero. *)
Theorem get_bigram_prob_spec (m : DS_matrix) (word prev_word : string) :
  ((exists e, get_bigram_prob m word prev_word = Raise e /\ unknown_word_error e)
   <-> (in_vocab m word = false \/ in_vocab m prev_word = false))
  /\ (forall pos prev_pos M,
        dict_get String.eqb (vocab_order m) word = Some pos ->
        dict_get String.eqb (vocab_order m) prev_word = Some prev_pos ->
        matrix m = Some M ->
        get_bigram_prob m word prev_word = mat_get M pos prev_pos
        /\ ((pos < nrows M)%nat -> (prev_pos < ncols M)%nat ->
            get_bigram_prob m word prev_word = Ok (cell M pos prev_pos))).
Proof.
  split.
  - unfold get_bigram_prob, unknown_word_error. split.
    + intros (e & He & Hu).
      destruct (in_vocab m word) eqn:Hw; [|now left].
      destruct (in_vocab m prev_word) eqn:Hp; [|now right].
      exfalso. simpl in He.
      unfold in_vocab in Hw, Hp.
      apply dict_mem_get in Hw as [pos Hpos].
      apply dict_mem_get in Hp as [ppos Hppos].
      unfold dict_index, matrix_subscript in He.
      rewrite Hpos, Hppos in He. simpl in He.
      destruct (matrix m) as [M|]; simpl in He.
      * apply mat_get_not_unknown in He. subst e.
        destruct Hu; discriminate.
      * injection He as <-. destruct Hu; discriminate.
    + intros [Hw|Hp].
      * rewrite Hw. simpl. eauto.
      * destruct (in_vocab m word); simpl.
        -- rewrite Hp. simpl. eauto.
        -- eauto.
  - intros pos prev_pos M Hpos Hppos HM.
    assert (Hread : get_bigram_prob m word prev_word = mat_get M pos prev_pos).
    { unfold get_bigram_prob, in_vocab, dict_mem, dict_index, matrix_subscript.
      rewrite Hpos, Hppos, HM. reflexivity. }
    split; [exact Hread|].
    intros Hr Hc. rewrite Hread. unfold mat_get.
    apply Nat.ltb_lt in Hr, Hc. rewrite Hr, Hc. reflexivity.
Qed.

Lemma get_bigram_prob_returns_or_raises (m : DS_matrix) (w prev : string) :
  (exists p, get_bigram_prob m w prev = Ok p)
  \/ (exists e, get_bigram_prob m w prev = Raise e).
Proof.
  unfold get_bigram_prob, dict_index, matrix_subscript, mat_get.
  destruct (in_vocab m w); simpl; eauto.
  destruct (in_vocab m prev); simpl; eauto.
  destruct (dict_get String.eqb (vocab_order m) prev); simpl; eauto.
  destruct (dict_get String.eqb (vocab_order m) w); simpl; eauto.
  destruct (matrix m); simpl; eauto.
  destruct (_ && _); eauto.
Qed.

(* ----------------------------------------------------------------- *)
(** ** [get_sentence_prob] *)

Lemma sentence_prob_loop_filter (m : DS_matrix) (s : list string) :
  forall prob prev_word,
    sentence_prob_loop m (filter (in_vocab m) s) prob prev_word
    = sentence_prob_loop m s prob prev_word.
Proof.
  induction s as [|word rest IH]; intros prob prev_word; simpl.
  - reflexivity.
  - destruct (in_vocab m word) eqn:Hw; simpl.
    + rewrite Hw. simpl.
      destruct (get_bigram_prob m word prev_word); simpl; auto.
    + apply IH.
Qed.

Lemma sentence_prob_loop_adjacent (m : DS_matrix) (s : list string) :
  forall prob prev_word,
    ('(pr, pv) <- sentence_prob_loop m s prob prev_word ;;
     p <- get_bigram_prob m END pv ;; Ok (pr * p))
    = (ps <- adjacent_bigrams m prev_word (filter (in_vocab m) s ++ [END]) ;;
       Ok (fold_left Qmult ps prob)).
Proof.
  induction s as [|word rest IH]; intros prob prev_word; simpl.
  - destruct (get_bigram_prob m END prev_word); reflexivity.
  - destruct (in_vocab m word) eqn:Hw; simpl.
    + destruct (get_bigram_prob m word prev_word) as [p| |]; simpl; auto.
      rewrite IH.
      destruct (adjacent_bigrams m word _); reflexivity.
    + apply IH.
Qed.

(** C7. Out-of-vocabulary words are skipped by [get_sentence_prob]: the
    call on [s] equals the call on [s] without its unknown words, and
    both are the product of the bigram probabilities along
    [START$_], the known words of [s] in order, [END$_]. *)
Theorem get_sentence_prob_skips_unknown (m : DS_matrix) (s : list string) :
  get_sentence_prob m s = get_sentence_prob m (filter (in_vocab m) s)
  /\ get_sentence_prob m s = bigram_product m (filter (in_vocab m) s).
Proof.
  split.
  - unfold get_sentence_prob. now rewrite sentence_prob_loop_filter.
  - unfold get_sentence_prob, bigram_product, Qprod.
    apply sentence_prob_loop_adjacent.
Qed.

(* ----------------------------------------------------------------- *)
(** ** [encode_sentence] *)

Lemma collect_vectors_unknown (m : DS_matrix) (ws : list string) :
  forall acc,
    (forall t, In t ws -> in_vocab m (lower t) = false) ->
    collect_vectors m ws acc = Ok acc.
Proof.
  induction ws as [|w ws IH]; intros acc Hun; simpl.
  - reflexivity.
  - rewrite (Hun w (or_introl eq_refl)). apply IH.
    intros t Ht. apply Hun. now right.
Qed.

Lemma collect_vectors_no_matrix (m : DS_matrix) (ws : list string) :
  matrix m = None ->
  forall acc vs, collect_vectors m ws acc = Ok vs -> vs = acc.
Proof.
  intros Hnone. induction ws as [|w ws IH]; intros acc vs; simpl.
  - congruence.
  - destruct (in_vocab m (lower w)) eqn:Hw; [|apply IH].
    unfold get_vector, matrix_subscript. rewrite Hw, Hnone. simpl.
    destruct (dict_index String.eqb (vocab_order m) (lower w)); discriminate.
Qed.

Lemma encode_sentence_has_matrix (tok : string -> list string)
    (m : DS_matrix) (sent : string) (target : list Q) :
  encode_sentence tok m sent = Ok target -> exists M, matrix m = Some M.
Proof.
  unfold encode_sentence. intros H.
  destruct (matrix m) as [M|] eqn:HM; [eauto|]. exfalso.
  destruct (collect_vectors m (tok sent) []) as [vs| |] eqn:Hc;
    simpl in H; try discriminate.
  apply (collect_vectors_no_matrix m _ HM) in Hc. subst vs.
  unfold matrix_attr in H. rewrite HM in H. discriminate.
Qed.

(** C9. When no token of the text is, once lower-cased, a word of the
    vocabulary (the empty text is such a text), [encode_sentence] returns
    a vector of as many coordinates as the matrix has columns, all zero. *)
Theorem encode_sentence_no_known_token (tok : string -> list string)
    (m : DS_matrix) (M : spmatrix) (sent : string) :
  matrix m = Some M ->
  (forall t, In t (tok sent) -> in_vocab m (lower t) = false) ->
  exists v, encode_sentence tok m sent = Ok v
            /\ List.length v = ncols M
            /\ (forall x, In x v -> x = 0).
Proof.
  intros HM Hun. exists (np_zeros (ncols M)).
  unfold encode_sentence. rewrite (collect_vectors_unknown m _ [] Hun).
  simpl. unfold matrix_attr. rewrite HM. simpl. unfold np_zeros.
  split; [reflexivity|]. split.
  - apply repeat_length.
  - intros x Hx. now apply repeat_spec in Hx.
Qed.

Lemma encode_sentence_no_known_token_witness :
  exists v, encode_sentence space_tokenize ab_model "x  Y" = Ok v
            /\ List.length v = 4%nat
            /\ (forall x, In x v -> x = 0).
Proof.
  apply (encode_sentence_no_known_token space_tokenize ab_model
           {| nrows := 4; ncols := 4;
              cell := cell_of_rows
                        [ [0;    0;     0;    0];
                          [3#5;  0;     1#5;  0];
                          [2#5;  7#10;  0;    0];
                          [0;    3#10;  4#5;  0] ] |}).
  - reflexivity.
  - intros t Ht. simpl in Ht.
    destruct Ht as [<-|[<-|[]]]; reflexivity.
Defined.

(* ----------------------------------------------------------------- *)
(** ** [reconstruct_sent]: the seed and the degenerate bags *)

Section ReconstructFacts.
Variable word_tokenize : string -> list string.
Variable greedy_search : DS_matrix -> list Q -> res (list string).
Variable set_iter : list string -> list string.

Lemma start_word_prob_none (m : DS_matrix) (w : string) (v : pyval) :
  start_word_prob m w = Ok v -> v = PyNone.
Proof.
  unfold start_word_prob.
  destruct (get_bigram_prob m w START); simpl; congruence.
Qed.

Lemma seed_queue_single (m : DS_matrix) (w : string) :
  seed_queue m [w]
  = (_ <- get_bigram_prob m w START ;; Ok [([w], PyNone)]).
Proof.
  unfold seed_queue, py_max, py_best, start_word_prob. simpl.
  destruct (get_bigram_prob m w START) as [p| |] eqn:Hp; simpl;
    try reflexivity.
  rewrite Hp. reflexivity.
Qed.

Lemma seed_queue_several (m : DS_matrix) (a b : string) (l : list string) :
  exists e, seed_queue m (a :: b :: l) = Raise e.
Proof.
  unfold seed_queue, py_max, py_best, start_word_prob. simpl.
  destruct (get_bigram_prob_returns_or_raises m a START) as [[p Ha]|[e Ha]];
    rewrite Ha; simpl; eauto.
  destruct (get_bigram_prob_returns_or_raises m b START) as [[q Hb]|[e Hb]];
    rewrite Hb; simpl; eauto.
Qed.
Lemma remove_used_single (w : string) : remove_used [w] [w] = [].
Proof.
  unfold remove_used. simpl. now rewrite String.eqb_refl.
Qed.

Lemma order_words_single (fuel : nat) (m : DS_matrix) (w : string)
    (beam_width : Z) :
  order_words set_iter (S fuel) m [w] beam_width
  = (_ <- get_bigram_prob m w START ;; Raise IndexError).
Proof.
  unfold order_words. rewrite seed_queue_single.
  destruct (get_bigram_prob m w START) as [p| |]; try reflexivity.
  cbn [bind beam_loop]. rewrite remove_used_single. reflexivity.
Qed.

Lemma order_words_single_not_ok (fuel : nat) (m : DS_matrix) (w : string)
    (beam_width : Z) (s : string) :
  order_words set_iter fuel m [w] beam_width <> Ok s.
Proof.
  destruct fuel as [|fuel].
  - unfold order_words. rewrite seed_queue_single.
    destruct (get_bigram_prob m w START); simpl; discriminate.
  - rewrite order_words_single.
    destruct (get_bigram_prob m w START); simpl; discriminate.
Qed.

(** C8. When the bag-of-words solver answers the empty bag,
    [reconstruct_sent] returns the empty string: nothing is raised, and
    the search loop is not entered (the result needs no fuel). *)
Theorem reconstruct_sent_empty_bag (fuel : nat) (m : DS_matrix)
    (sent : string) (beam_width : Z) (target : list Q) :
  encode_sentence word_tokenize m sent = Ok target ->
  greedy_search m target = Ok [] ->
  reconstruct_sent word_tokenize greedy_search set_iter fuel m sent beam_width
  = Ok "".
Proof.
  intros Henc Hbag. unfold reconstruct_sent.
  destruct (encode_sentence_has_matrix _ _ _ _ Henc) as [M HM].
  rewrite Henc. simpl. rewrite Hbag. simpl.
  unfold matrix_attr. rewrite HM. reflexivity.
Qed.

(** C10. When the solver answers a bag of exactly one word [w],
    [reconstruct_sent] returns no sentence, whatever the beam width: the
    seed already holds [w], the completion branch reads [words_left[0]]
    of an empty list and the call raises ([IndexError] when the start
    bigram of [w] can be looked up, the exception of that lookup
    otherwise). *)
Theorem reconstruct_sent_single_word_fails (fuel : nat) (m : DS_matrix)
    (sent : string) (beam_width : Z) (target : list Q) (w : string) :
  encode_sentence word_tokenize m sent = Ok target ->
  greedy_search m target = Ok [w] ->
  (forall s,
      reconstruct_sent word_tokenize greedy_search set_iter fuel m sent
                       beam_width <> Ok s)
  /\ (exists e,
         reconstruct_sent word_tokenize greedy_search set_iter (S fuel) m sent
                          beam_width = Raise e
         /\ (forall p, get_bigram_prob m w START = Ok p -> e = IndexError)).
Proof.
  intros Henc Hbag.
  destruct (encode_sentence_has_matrix _ _ _ _ Henc) as [M HM].
  unfold reconstruct_sent. rewrite Henc. cbn [bind]. rewrite Hbag.
  unfold matrix_attr. rewrite HM. cbn [bind]. split.
  - intros s. apply order_words_single_not_ok.
  - rewrite order_words_single.
    destruct (get_bigram_prob_returns_or_raises m w START) as [[p Hp]|[e He]].
    + rewrite Hp. simpl. exists IndexError. split; [reflexivity | trivial].
    + rewrite He. simpl. exists e. split; [reflexivity | discriminate].
Qed.
End ReconstructFacts.

Lemma reconstruct_sent_empty_bag_witness :
  reconstruct_sent space_tokenize (fixed_bag []) insertion_order 0 ab_model
                   "c d" 3 = Ok "".
Proof.
  apply (reconstruct_sent_empty_bag space_tokenize (fixed_bag [])
           insertion_order 0 ab_model "c d" 3 [0; 0; 0; 0]);
    reflexivity.
Defined.

Lemma reconstruct_sent_single_word_fails_witness :
  (forall s,
      reconstruct_sent space_tokenize (fixed_bag ["a"]) insertion_order 5
                       ab_model "a" 3 <> Ok s)
  /\ (exists e,
         reconstruct_sent space_tokenize (fixed_bag ["a"]) insertion_order 6
                          ab_model "a" 3 = Raise e
         /\ (forall p, get_bigram_prob ab_model "a" START = Ok p ->
                       e = IndexError)).
Proof.
  apply (reconstruct_sent_single_word_fails space_tokenize (fixed_bag ["a"])
           insertion_order 5 ab_model "a" 3 [3#5; 0; 1#5; 0] "a");
    reflexivity.
Defined.

(** C1. On the model [ab_model], where [P(a|START) > P(b|START)] and
    [P(b|a) > P(a|b)], and with the bag [{a, b}], [reconstruct_sent]
    does not return ["a b"]: the keys of [max] are [None] and their
    comparison raises [TypeError], for every beam width. *)
Theorem reconstruct_sent_ab_raises :
  get_bigram_prob ab_model "a" START = Ok (3#5)
  /\ get_bigram_prob ab_model "b" START = Ok (2#5)
  /\ get_bigram_prob ab_model "b" "a" = Ok (7#10)
  /\ get_bigram_prob ab_model "a" "b" = Ok (1#5)
  /\ forall fuel beam_width,
       reconstruct_sent space_tokenize (fixed_bag ["a"; "b"]) insertion_order
                        fuel ab_model "a b" beam_width = Raise TypeError.
Proof.
  repeat split.
Qed.

(** C2. The seed of the queue does not carry the start-bigram
    probability: with two words the comparison of the [None] keys raises
    [TypeError], and with one word the queue is seeded with [None] where
    the start bigram is [3/5]. *)
Theorem seed_queue_drops_probability :
  seed_queue ab_model ["a"; "b"] = Raise TypeError
  /\ seed_queue ab_model ["a"] = Ok [(["a"], PyNone)]
  /\ get_bigram_prob ab_model "a" START = Ok (3#5).
Proof.
  repeat split.
Qed.

(* ----------------------------------------------------------------- *)
(** ** The bounded queue *)

(** [min] over numeric entries answers the first entry of least
    probability; [done] is the part of the list already scanned. *)
Lemma py_min_from_least (l : list entry) :
  forall done best bq bi,
    least_in done bi best bq ->
    Forall numeric l ->
    exists r rq ri,
      py_best_from py_lt entry_key best (PyFloat bq) l = Ok r
      /\ least_in (done ++ l) ri r rq.
Proof.
  induction l as [|y l IH]; intros done best bq bi Hleast Hnum.
  - exists best, bq, bi. rewrite app_nil_r. now split.
  - inversion Hnum as [|? ? [qy Hy] Hnum']; subst.
    destruct Hleast as (Hnth & Hbq & Hmin & Hstrict).
    assert (Hbi : (bi < List.length done)%nat).
    { apply nth_error_Some. congruence. }
    replace (done ++ y :: l) with ((done ++ [y]) ++ l)
      by (rewrite <- app_assoc; reflexivity).
    cbn [py_best_from entry_key bind]. rewrite Hy. cbn [py_lt bind].
    destruct (Qle_bool bq qy) eqn:Hcmp; cbn [negb].
    + apply Qle_bool_iff in Hcmp.
      apply (IH (done ++ [y]) best bq bi); [|exact Hnum'].
      repeat split.
      * rewrite nth_error_app1; assumption.
      * assumption.
      * intros j t q Hj Ht.
        destruct (Nat.lt_ge_cases j (List.length done)) as [Hlt|Hge].
        -- rewrite nth_error_app1 in Hj by assumption. eauto.
        -- rewrite nth_error_app2 in Hj by assumption.
           destruct (j - List.length done)%nat as [|k]; simpl in Hj.
           ++ injection Hj as <-. rewrite Hy in Ht. injection Ht as <-.
              exact Hcmp.
           ++ destruct k; discriminate.
      * intros j t q Hlt Hj Ht.
        rewrite nth_error_app1 in Hj by lia. eauto.
    + assert (Hlt : qy < bq).
      { apply Qnot_le_lt. intros Hle. apply Qle_bool_iff in Hle. congruence. }
      apply (IH (done ++ [y]) y qy (List.length done)); [|exact Hnum'].
      repeat split.
      * rewrite nth_error_app2 by lia. now rewrite Nat.sub_diag.
      * assumption.
      * intros j t q Hj Ht.
        destruct (Nat.lt_ge_cases j (List.length done)) as [Hl|Hge].
        -- rewrite nth_error_app1 in Hj by assumption.
           apply Qlt_le_weak. eapply Qlt_le_trans; [exact Hlt | eauto].
        -- rewrite nth_error_app2 in Hj by assumption.
           destruct (j - List.length done)%nat as [|k]; simpl in Hj.
           ++ injection Hj as <-. rewrite Hy in Ht. injection Ht as <-.
              apply Qle_refl.
           ++ destruct k; discriminate.
      * intros j t q Hl Hj Ht.
        rewrite nth_error_app1 in Hj by assumption.
        eapply Qlt_le_trans; [exact Hlt | eauto].
Qed.

Lemma py_min_least (l : list entry) :
  l <> [] -> Forall numeric l ->
  exists r rq ri, py_min entry_key l = Ok r /\ least_in l ri r rq.
Proof.
  destruct l as [|x l]; [congruence|]. intros _ Hnum.
  inversion Hnum as [|? ? [qx Hx] Hnum']; subst.
  unfold py_min, py_best. cbn [entry_key bind]. rewrite Hx.
  apply (py_min_from_least l [x] x qx 0%nat); [|exact Hnum'].
  repeat split; try assumption.
  - intros [|[|j]] t q Hj Ht; simpl in Hj; try discriminate.
    injection Hj as <-. rewrite Hx in Ht. injection Ht as <-. apply Qle_refl.
  - intros j t q Hj. lia.
Qed.

Lemma entry_eqb_refl (t : entry) : entry_eqb t t = true.
Proof.
  unfold entry_eqb. destruct (list_eq_dec string_dec (fst t) (fst t));
    [|congruence].
  destruct (snd t); simpl; [reflexivity | apply Qeq_bool_refl].
Qed.

Lemma list_remove_first_match (l : list entry) :
  forall i x,
    nth_error l i = Some x ->
    (forall j t, (j < i)%nat -> nth_error l j = Some t -> entry_eqb t x = false) ->
    list_remove entry_eqb l x = Ok (remove_at i l).
Proof.
  induction l as [|y l IH]; intros [|i] x Hnth Hbefore; simpl in Hnth;
    try discriminate.
  - injection Hnth as ->. simpl. now rewrite entry_eqb_refl.
  - simpl. rewrite (Hbefore 0%nat y) by (simpl; auto with arith).
    rewrite (IH i x Hnth).
    + reflexivity.
    + intros j t Hj Ht. apply (Hbefore (S j) t); [lia | exact Ht].
Qed.

Lemma remove_at_length {A : Type} (i : nat) (l : list A) :
  (i < List.length l)%nat ->
  S (List.length (remove_at i l)) = List.length l.
Proof.
  intros Hi. unfold remove_at.
  rewrite length_app, length_firstn, length_skipn. lia.
Qed.

Lemma push_pruned_prunes (queue : list entry) (e : entry) :
  Forall numeric (queue ++ [e]) ->
  (Z.of_nat (List.length (queue ++ [e])) > 10000)%Z ->
  exists i ws p,
    (i < 1000)%nat
    /\ nth_error (queue ++ [e]) i = Some (ws, PyFloat p)
    /\ (forall j ws' p',
           (j < 1000)%nat ->
           nth_error (queue ++ [e]) j = Some (ws', PyFloat p') -> p <= p')
    /\ push_pruned queue e = Ok (remove_at i (queue ++ [e]))
    /\ List.length (remove_at i (queue ++ [e])) = List.length queue.
Proof.
  intros Hnum Hlen. unfold push_pruned.
  destruct (Z.gtb_spec (Z.of_nat (List.length (queue ++ [e]))) 10000);
    [|lia].
  assert (Hq1 : List.length (queue ++ [e]) = S (List.length queue)).
  { rewrite length_app. simpl. lia. }
  revert Hnum Hlen Hq1. generalize (queue ++ [e]). intros q1 Hnum Hlen Hq1.
  remember 1000%nat as window eqn:Hwindow.
  assert (Hw : (0 < window <= List.length q1)%nat) by lia.
  clear Hwindow.
  destruct (py_min_least (firstn window q1)) as (r & rq & ri & Hmin & Hl).
  { intros Hnil. apply (f_equal (@List.length entry)) in Hnil.
    rewrite length_firstn in Hnil. simpl in Hnil. lia. }
  { apply Forall_forall. intros t Ht.
    apply (proj1 (Forall_forall _ _) Hnum).
    rewrite <- (firstn_skipn window q1). apply in_or_app. now left. }
  destruct Hl as (Hnth & Hrq & Hleast & Hstrict).
  assert (Hri : (ri < window)%nat).
  { assert (Hlt : (ri < List.length (firstn window q1))%nat)
      by (apply nth_error_Some; congruence).
    rewrite length_firstn in Hlt. lia. }
  assert (Hin : forall j, (j < window)%nat ->
                          nth_error (firstn window q1) j = nth_error q1 j).
  { intros j Hj. rewrite nth_error_firstn.
    apply Nat.ltb_lt in Hj. now rewrite Hj. }
  destruct r as [ws rp]. simpl in Hrq. subst rp.
  exists ri, ws, rq. rewrite Hmin. cbn [bind].
  rewrite <- (Hin ri Hri). repeat split; try assumption.
  - intros j ws' p' Hj Hnj. rewrite <- (Hin j Hj) in Hnj.
    exact (Hleast j (ws', PyFloat p') p' Hnj eq_refl).
  - apply list_remove_first_match.
    + now rewrite <- (Hin ri Hri).
    + intros j [ws' p'] Hj Hnj.
      rewrite <- (Hin j) in Hnj by lia.
      assert (Hnumt : numeric (ws', p')).
      { apply (proj1 (Forall_forall _ _) Hnum).
        rewrite <- (firstn_skipn window q1). apply in_or_app. left.
        eapply nth_error_In; eassumption. }
      destruct Hnumt as [q Hq]. simpl in Hq. subst p'.
      pose proof (Hstrict j _ q Hj Hnj eq_refl) as Hlt.
      unfold entry_eqb. simpl.
      destruct (Qeq_bool q rq) eqn:Heq.
      * apply Qeq_bool_iff in Heq. rewrite Heq in Hlt.
        now apply Qlt_irrefl in Hlt.
      * apply andb_false_r.
  - assert (Hlt : (ri < List.length q1)%nat) by lia.
    pose proof (remove_at_length ri q1 Hlt) as Hr. lia.
Qed.

(** C3. Appending an entry to a queue of numeric entries: when the new
    length is at most 10000 the queue is just extended; when it exceeds
    10000 exactly one entry goes, the first one of least probability
    among the first 1000 entries (entries further back are not looked
    at), so that a queue of at most 10000 entries still has at most
    10000 after the append. *)
Theorem push_pruned_spec (queue : list entry) (e : entry) :
  Forall numeric (queue ++ [e]) ->
  ((Z.of_nat (List.length (queue ++ [e])) <= 10000)%Z ->
   push_pruned queue e = Ok (queue ++ [e]))
  /\ ((Z.of_nat (List.length (queue ++ [e])) > 10000)%Z ->
      exists i ws p,
        (i < 1000)%nat
        /\ nth_error (queue ++ [e]) i = Some (ws, PyFloat p)
        /\ (forall j ws' p',
               (j < 1000)%nat ->
               nth_error (queue ++ [e]) j = Some (ws', PyFloat p') -> p <= p')
        /\ push_pruned queue e = Ok (remove_at i (queue ++ [e]))
        /\ List.length (remove_at i (queue ++ [e])) = List.length queue)
  /\ ((Z.of_nat (List.length queue) <= 10000)%Z ->
      exists queue',
        push_pruned queue e = Ok queue'
        /\ (Z.of_nat (List.length queue') <= 10000)%Z).
Proof.
  intros Hnum.
  assert (Hsmall : (Z.of_nat (List.length (queue ++ [e])) <= 10000)%Z ->
                   push_pruned queue e = Ok (queue ++ [e])).
  { intros Hlen. unfold push_pruned.
    destruct (Z.gtb_spec (Z.of_nat (List.length (queue ++ [e]))) 10000);
      [lia | reflexivity]. }
  split; [exact Hsmall|]. split; [apply push_pruned_prunes; exact Hnum|].
  intros Hq.
  destruct (Z_le_gt_dec (Z.of_nat (List.length (queue ++ [e]))) 10000)
    as [Hle|Hgt].
  - exists (queue ++ [e]). split; [auto | exact Hle].
  - destruct (push_pruned_prunes queue e Hnum Hgt)
      as (i & ws & p & _ & _ & _ & Hpush & Hlen).
    exists (remove_at i (queue ++ [e])). split; [exact Hpush|].
    rewrite Hlen. exact Hq.
Qed.

Lemma full_queue_numeric : Forall numeric (full_queue ++ [late_entry]).
Proof.
  apply Forall_app. split.
  - apply Forall_forall. intros t Ht. apply repeat_spec in Ht. subst t.
    now exists 1.
  - constructor; [now exists (1#2) | constructor].
Qed.

Lemma push_pruned_spec_witness :
  (Z.of_nat (List.length (full_queue ++ [late_entry])) > 10000)%Z
  /\ exists i ws p,
       (i < 1000)%nat
       /\ nth_error (full_queue ++ [late_entry]) i = Some (ws, PyFloat p)
       /\ (forall j ws' p',
              (j < 1000)%nat ->
              nth_error (full_queue ++ [late_entry]) j
              = Some (ws', PyFloat p') -> p <= p')
       /\ push_pruned full_queue late_entry
          = Ok (remove_at i (full_queue ++ [late_entry]))
       /\ List.length (remove_at i (full_queue ++ [late_entry]))
          = List.length full_queue.
Proof.
  assert (Hlen : (Z.of_nat (List.length (full_queue ++ [late_entry]))
                  > 10000)%Z).
  { unfold full_queue. rewrite length_app, repeat_length. simpl. lia. }
  split; [exact Hlen|].
  exact (proj1 (proj2 (push_pruned_spec full_queue late_entry
                         full_queue_numeric)) Hlen).
Defined.

(* ----------------------------------------------------------------- *)
(** ** [generate_bigram_sentence] *)

Lemma Qsum_from (p : list Q) :
  forall acc, fold_left Qplus p acc == acc + Qsum p.
Proof.
  unfold Qsum. induction p as [|x p IH]; intros acc; simpl.
  - lra.
  - rewrite (IH (acc + x)), (IH (0 + x)). lra.
Qed.

Lemma Qsum_cons (x : Q) (p : list Q) : Qsum (x :: p) == x + Qsum p.
Proof.
  unfold Qsum at 1. simpl. rewrite Qsum_from. lra.
Qed.












(* ----------------------------------------------------------------- *)
(** ** [less_words_matrix]: the reduced vocabulary *)

Lemma dict_set_fresh {V : Type} (d : list (string * V)) (k : string) (v : V) :
  ~ In k (dict_keys d) -> dict_set String.eqb d k v = d ++ [(k, v)].
Proof.
  unfold dict_keys. induction d as [|[k' v'] d IH]; simpl; intros Hk.
  - reflexivity.
  - destruct (String.eqb_spec k k') as [->|Hne]; [tauto|].
    rewrite IH by tauto. reflexivity.
Qed.


Lemma dict_keys_enumerated (ws : list string) :
  forall i, dict_keys (combine ws (seq i (List.length ws))) = ws.
Proof.
  unfold dict_keys. induction ws as [|x ws IH]; intros i; simpl.
  - reflexivity.
  - now rewrite IH.
Qed.

Lemma dict_keys_app {V : Type} (d d' : list (string * V)) :
  dict_keys (d ++ d') = dict_keys d ++ dict_keys d'.
Proof.
  unfold dict_keys. apply map_app.
Qed.

Lemma copy_rows_spec (self : DS_matrix) (selfM : spmatrix)
    (ws : list string) :
  forall i new newM new' newM',
    NoDup ws ->
    (forall w, In w ws -> ~ In w (dict_keys (vocab_order new))) ->
    copy_rows self selfM ws i new newM = Ok (new', newM') ->
    vocab_order new'
    = vocab_order new ++ combine ws (seq i (List.length ws))
    /\ nrows newM' = nrows newM
    /\ ncols newM' = ncols newM
    /\ ((forall r c, 0 <= cell selfM r c) ->
        (forall r c, 0 <= cell newM r c) ->
        forall r c, 0 <= cell newM' r c).
Proof.
  induction ws as [|w ws IH]; intros i new newM new' newM' Hnd Hfresh; simpl.
  - intros H. injection H as <- <-. rewrite app_nil_r. tauto.
  - inversion Hnd as [|? ? Hw Hnd']; subst.
    destruct (dict_index String.eqb (unigram_probs self) w) as [u| |];
      cbn [bind]; try discriminate.
    destruct (dict_index String.eqb (vocab_order self) w) as [pos| |];
      cbn [bind]; try discriminate.
    destruct (pos <? nrows selfM)%nat; [|discriminate].
    intros H. apply IH in H; [|assumption|].
    + simpl in H. destruct H as (Hv & Hr & Hc & Hpos).
      rewrite dict_set_fresh in Hv by (apply Hfresh; now left).
      rewrite <- app_assoc in Hv. simpl in Hv.
      repeat split; try assumption.
      intros Hself Hnew. apply Hpos; [assumption|].
      intros r c. simpl. destruct (r =? i)%nat; auto.
    + simpl. intros w' Hw'.
      rewrite dict_set_fresh by (apply Hfresh; now left).
      rewrite dict_keys_app. simpl. intros Hin.
      apply in_app_or in Hin. destruct Hin as [Hin|[<-|[]]].
      * apply (Hfresh w'); [now right | assumption].
      * contradiction.
Qed.



(* ----------------------------------------------------------------- *)
(** ** [less_words_matrix]: the normalization *)

Lemma dict_get_set_nat {V : Type} (d : list (nat * V)) (k k' : nat) (v : V) :
  dict_get Nat.eqb (dict_set Nat.eqb d k v) k'
  = if (k' =? k)%nat then Some v else dict_get Nat.eqb d k'.
Proof.
  induction d as [|[k0 v0] d IH]; simpl.
  - reflexivity.
  - destruct (Nat.eqb_spec k k0) as [->|Hne]; simpl.
    + destruct (k' =? k0)%nat; reflexivity.
    + rewrite IH. destruct (Nat.eqb_spec k' k0) as [->|Hne'].
      * destruct (Nat.eqb_spec k0 k); [congruence | reflexivity].
      * reflexivity.
Qed.

Lemma build_entry_dict_get (nz : list (nat * nat)) :
  forall d c,
    dict_get Nat.eqb (build_entry_dict nz d) c
    = match dict_get Nat.eqb d c with
      | Some old => Some (old ++ rows_of c nz)
      | None => match rows_of c nz with [] => None | rs => Some rs end
      end.
Proof.
  unfold rows_of.
  induction nz as [|[row col] nz IH]; intros d c; simpl.
  - destruct (dict_get Nat.eqb d c); [now rewrite app_nil_r | reflexivity].
  - rewrite IH.
    assert (Hget : dict_get Nat.eqb
                     match dict_get Nat.eqb d col with
                     | Some rows => dict_set Nat.eqb d col (rows ++ [row])
                     | None => dict_set Nat.eqb d col [row]
                     end c
                   = if (c =? col)%nat
                     then Some (match dict_get Nat.eqb d col with
                                | Some rows => rows ++ [row]
                                | None => [row]
                                end)
                     else dict_get Nat.eqb d c).
    { destruct (dict_get Nat.eqb d col); apply dict_get_set_nat. }
    rewrite Hget. rewrite (Nat.eqb_sym col c). clear Hget.
    destruct (Nat.eqb_spec c col) as [Heq|Hne]; simpl.
    + rewrite Heq. destruct (dict_get Nat.eqb d col); simpl.
      * now rewrite <- app_assoc.
      * reflexivity.
    + reflexivity.
Qed.

Lemma rows_of_app (c : nat) (a b : list (nat * nat)) :
  rows_of c (a ++ b) = rows_of c a ++ rows_of c b.
Proof.
  unfold rows_of. now rewrite filter_app, map_app.
Qed.

Lemma rows_of_column (c c' : nat) (rows : list nat) :
  rows_of c (map (fun r => (r, c')) rows)
  = if (c' =? c)%nat then rows else [].
Proof.
  unfold rows_of. induction rows as [|r rows IH]; simpl.
  - now destruct (c' =? c)%nat.
  - destruct (c' =? c)%nat; simpl; [now f_equal | exact IH].
Qed.

Lemma rows_of_columns (f : nat -> list nat) (c len : nat) :
  forall start,
    rows_of c (flat_map (fun c' => map (fun r => (r, c')) (f c'))
                        (seq start len))
    = if (start <=? c)%nat && (c <? start + len)%nat then f c else [].
Proof.
  induction len as [|len IH]; intros start; simpl.
  - destruct (Nat.leb_spec start c), (Nat.ltb_spec c (start + 0));
      simpl; try reflexivity; lia.
  - rewrite rows_of_app, rows_of_column, IH.
    destruct (Nat.eqb_spec start c) as [->|Hne].
    + destruct (Nat.leb_spec (S c) c), (Nat.ltb_spec c (S c + len));
        simpl; try lia.
      all: destruct (Nat.leb_spec c c), (Nat.ltb_spec c (c + S len));
        simpl; try lia; now rewrite app_nil_r.
    + destruct (Nat.leb_spec (S start) c), (Nat.ltb_spec c (S start + len)),
        (Nat.leb_spec start c), (Nat.ltb_spec c (start + S len));
        simpl; try reflexivity; lia.
Qed.

Lemma rows_of_nonzero (M : spmatrix) (c : nat) :
  rows_of c (nonzero M) = if (c <? ncols M)%nat then nonzero_rows M c else [].
Proof.
  unfold nonzero. rewrite rows_of_columns. reflexivity.
Qed.

Lemma nonzero_rows_NoDup (M : spmatrix) (c : nat) :
  NoDup (nonzero_rows M c).
Proof.
  unfold nonzero_rows. apply NoDup_filter, seq_NoDup.
Qed.

Lemma nonzero_rows_In (M : spmatrix) (c r : nat) :
  In r (nonzero_rows M c) <-> (r < nrows M)%nat /\ ~ cell M r c == 0.
Proof.
  unfold nonzero_rows. rewrite filter_In, in_seq. split.
  - intros [Hr Hnz]. split; [lia|].
    intros Hz. apply Qeq_bool_iff in Hz. rewrite Hz in Hnz. discriminate.
  - intros [Hr Hnz]. split; [lia|].
    destruct (Qeq_bool (cell M r c) 0) eqn:Hz; [|reflexivity].
    apply Qeq_bool_iff in Hz. contradiction.
Qed.

(** The entry of a column in [entry_dict] is the list of its non-zero
    rows, and the columns visited are those that have one. *)
Lemma entry_dict_of_nonzero (M : spmatrix) (c : nat) (rows : list nat) :
  dict_index Nat.eqb (build_entry_dict (nonzero M) []) c = Ok rows ->
  rows = nonzero_rows M c /\ rows <> [].
Proof.
  unfold dict_index. rewrite build_entry_dict_get, rows_of_nonzero. simpl.
  destruct (c <? ncols M)%nat eqn:Hc; [|discriminate].
  destruct (nonzero_rows M c); [discriminate|].
  intros H. injection H as <-. split; [reflexivity | discriminate].
Qed.

Lemma nonzero_columns_In (M : spmatrix) (r c : nat) :
  In r (nonzero_rows M c) -> (c < ncols M)%nat ->
  In c (map snd (nonzero M)).
Proof.
  intros Hr Hc. apply in_map_iff. exists (r, c). split; [reflexivity|].
  unfold nonzero. apply in_flat_map. exists c. split.
  - apply in_seq. lia.
  - apply in_map_iff. now exists r.
Qed.

Lemma divide_cells_shape (col : nat) (s : Q) (rows : list nat) :
  forall M, nrows (divide_cells M col s rows) = nrows M
            /\ ncols (divide_cells M col s rows) = ncols M.
Proof.
  unfold divide_cells. induction rows as [|r rows IH]; intros M; simpl.
  - now split.
  - destruct (IH (set_cell M r col (cell M r col / s))) as [-> ->].
    now split.
Qed.

Lemma divide_cells_other (col : nat) (s : Q) (rows : list nat) :
  forall M r c,
    c <> col \/ ~ In r rows ->
    cell (divide_cells M col s rows) r c = cell M r c.
Proof.
  unfold divide_cells. induction rows as [|r0 rows IH]; intros M r c H; simpl.
  - reflexivity.
  - rewrite IH by (simpl in H; tauto). simpl.
    destruct (Nat.eqb_spec r r0) as [->|Hr]; [|reflexivity].
    destruct (Nat.eqb_spec c col) as [->|Hc]; [|reflexivity].
    simpl in H. exfalso. destruct H as [H|H]; [congruence | tauto].
Qed.

Lemma divide_cells_divided (col : nat) (s : Q) (rows : list nat) :
  forall M r,
    NoDup rows -> In r rows ->
    cell (divide_cells M col s rows) r col = cell M r col / s.
Proof.
  induction rows as [|r0 rows IH]; intros M r Hnd Hin; [destruct Hin|].
  inversion Hnd as [|? ? Hr0 Hnd']; subst.
  change (divide_cells M col s (r0 :: rows))
    with (divide_cells (set_cell M r0 col (cell M r0 col / s)) col s rows).
  destruct Hin as [->|Hin].
  - rewrite divide_cells_other by (now right). simpl.
    now rewrite !Nat.eqb_refl.
  - rewrite IH by assumption. simpl.
    destruct (Nat.eqb_spec r r0) as [->|Hr]; [contradiction | reflexivity].
Qed.

Lemma Qsum_map_ext {A : Type} (f g : A -> Q) (l : list A) :
  (forall a, In a l -> f a == g a) ->
  Qsum (map f l) == Qsum (map g l).
Proof.
  induction l as [|a l IH]; intros H; simpl.
  - reflexivity.
  - rewrite !Qsum_cons.
    rewrite (H a (or_introl eq_refl)).
    rewrite IH by (intros b Hb; apply H; now right).
    reflexivity.
Qed.

Lemma Qsum_map_div {A : Type} (f : A -> Q) (s : Q) (l : list A) :
  Qsum (map (fun a => f a / s) l) == Qsum (map f l) / s.
Proof.
  induction l as [|a l IH]; simpl.
  - unfold Qsum, Qdiv. simpl. ring.
  - rewrite !Qsum_cons, IH. unfold Qdiv. ring.
Qed.

Lemma Qsum_nonneg (l : list Q) :
  (forall x, In x l -> 0 <= x) -> 0 <= Qsum l.
Proof.
  induction l as [|x l IH]; intros H.
  - unfold Qsum. simpl. lra.
  - rewrite Qsum_cons.
    pose proof (H x (or_introl eq_refl)).
    assert (0 <= Qsum l) by (apply IH; intros; apply H; now right).
    lra.
Qed.

Lemma Qsum_pos (l : list Q) (y : Q) :
  (forall x, In x l -> 0 <= x) -> In y l -> 0 < y -> 0 < Qsum l.
Proof.
  induction l as [|x l IH]; intros H Hin Hy; [destruct Hin|].
  rewrite Qsum_cons.
  pose proof (H x (or_introl eq_refl)).
  assert (0 <= Qsum l) by (apply Qsum_nonneg; intros; apply H; now right).
  destruct Hin as [->|Hin].
  - lra.
  - assert (0 < Qsum l) by (apply IH; auto; intros; apply H; now right).
    lra.
Qed.

Lemma keeps_pattern_nonneg (M0 M : spmatrix) (r c : nat) :
  keeps_pattern M0 M -> (r < nrows M0)%nat -> 0 <= cell M r c.
Proof.
  intros K Hr.
  destruct (in_dec Nat.eq_dec r (nonzero_rows M0 c)) as [Hin|Hout].
  - apply Qlt_le_weak. now apply (kp_pos _ _ K).
  - rewrite (kp_zero _ _ K r c Hr Hout). apply Qle_refl.
Qed.

Lemma keeps_pattern_colsum_pos (M0 M : spmatrix) (c : nat) :
  keeps_pattern M0 M -> nonzero_rows M0 c <> [] -> 0 < colsum M c.
Proof.
  intros K Hne. destruct (nonzero_rows M0 c) as [|r rows] eqn:Hrows;
    [congruence|].
  assert (Hin : In r (nonzero_rows M0 c)) by (rewrite Hrows; now left).
  pose proof (proj1 (nonzero_rows_In M0 c r) Hin) as [Hr _].
  unfold colsum. apply (Qsum_pos _ (cell M r c)).
  - intros x Hx. apply in_map_iff in Hx. destruct Hx as (i & <- & Hi).
    apply in_seq in Hi. apply (keeps_pattern_nonneg M0); [assumption|].
    rewrite <- (kp_rows _ _ K). lia.
  - apply in_map_iff. exists r. split; [reflexivity|].
    apply in_seq. rewrite (kp_rows _ _ K). lia.
  - now apply (kp_pos _ _ K).
Qed.

(** One visit of a column that has a non-zero cell: its cells are
    divided by its sum, which becomes 1; the other columns stay. *)
Lemma visit_column (M0 M : spmatrix) (col : nat) :
  keeps_pattern M0 M ->
  nonzero_rows M0 col <> [] ->
  keeps_pattern M0 (divide_cells M col (colsum M col) (nonzero_rows M0 col))
  /\ colsum (divide_cells M col (colsum M col) (nonzero_rows M0 col)) col == 1
  /\ (forall c, c <> col ->
                colsum (divide_cells M col (colsum M col)
                                     (nonzero_rows M0 col)) c
                == colsum M c).
Proof.
  intros K Hne.
  pose proof (keeps_pattern_colsum_pos M0 M col K Hne) as Hs.
  set (s := colsum M col) in *.
  set (rows := nonzero_rows M0 col) in *.
  destruct (divide_cells_shape col s rows M) as [Hnr Hnc].
  split; [|split].
  - constructor.
    + rewrite Hnr. apply (kp_rows _ _ K).
    + rewrite Hnc. apply (kp_cols _ _ K).
    + intros r c Hr Hout. rewrite divide_cells_other.
      * now apply (kp_zero _ _ K).
      * destruct (Nat.eq_dec c col) as [->|Hc]; [now right | now left].
    + intros r c Hin. destruct (Nat.eq_dec c col) as [->|Hc].
      * rewrite divide_cells_divided
          by (assumption || apply nonzero_rows_NoDup).
        apply Qlt_shift_div_l; [assumption|].
        pose proof (kp_pos _ _ K r col Hin). lra.
      * rewrite divide_cells_other by (now left). now apply (kp_pos _ _ K).
  - unfold colsum at 1. rewrite Hnr.
    rewrite (Qsum_map_ext _ (fun i => cell M i col / s)).
    + rewrite Qsum_map_div. fold (colsum M col). fold s. field. lra.
    + intros i Hi. apply in_seq in Hi.
      destruct (in_dec Nat.eq_dec i rows) as [Hin|Hout].
      * rewrite divide_cells_divided
          by (assumption || apply nonzero_rows_NoDup).
        reflexivity.
      * rewrite divide_cells_other by (now right).
        assert (Hz : cell M i col == 0).
        { apply (kp_zero _ _ K); [|assumption].
          rewrite <- (kp_rows _ _ K). lia. }
        rewrite Hz. field. lra.
  - intros c Hc. unfold colsum. rewrite Hnr.
    apply Qsum_map_ext. intros i _.
    rewrite divide_cells_other by (now left). reflexivity.
Qed.

Lemma normalize_columns_spec (M0 : spmatrix) (d : list (nat * list nat)) :
  (forall c rows, dict_index Nat.eqb d c = Ok rows ->
                  rows = nonzero_rows M0 c /\ rows <> []) ->
  forall columns M M',
    keeps_pattern M0 M ->
    normalize_columns columns d M = Ok M' ->
    keeps_pattern M0 M'
    /\ (forall c, In c columns \/ colsum M c == 1 -> colsum M' c == 1).
Proof.
  intros Hd. induction columns as [|col rest IH]; intros M M' K; simpl.
  - intros H. injection H as <-. split; [assumption|].
    intros c [[]|Hc]. exact Hc.
  - destruct (dict_index Nat.eqb d col) as [rows| |] eqn:Hrows;
      cbn [bind]; try discriminate.
    destruct (Hd col rows Hrows) as [-> Hne].
    destruct (visit_column M0 M col K Hne) as (K1 & Hone & Hother).
    intros H. destruct (IH _ _ K1 H) as [K' Hsum].
    split; [assumption|].
    intros c Hc. apply Hsum.
    destruct (Nat.eq_dec c col) as [->|Hneq].
    + now right.
    + destruct Hc as [[Heq|Hin]|Hc1].
      * congruence.
      * now left.
      * right. rewrite Hother by assumption. exact Hc1.
Qed.

Lemma keeps_pattern_refl (M0 : spmatrix) :
  (forall r c, 0 <= cell M0 r c) -> keeps_pattern M0 M0.
Proof.
  intros Hnn. constructor; try reflexivity.
  - intros r c Hr Hout.
    destruct (Qeq_dec (cell M0 r c) 0) as [Hz|Hnz]; [assumption|].
    exfalso. apply Hout. apply nonzero_rows_In. now split.
  - intros r c Hin. apply nonzero_rows_In in Hin. destruct Hin as [_ Hnz].
    pose proof (Hnn r c) as Hle.
    apply Qle_lt_or_eq in Hle. destruct Hle as [Hlt|Heq]; [assumption|].
    exfalso. apply Hnz. now rewrite <- Heq.
Qed.

(** On a matrix without negative cells the normalization leaves the shape
    and the zeros, and every column with a non-zero cell sums to 1. *)
Lemma normalize_matrix_spec (M0 M' : spmatrix) :
  (forall r c, 0 <= cell M0 r c) ->
  normalize_matrix M0 = Ok M' ->
  keeps_pattern M0 M'
  /\ (forall r c, In r (nonzero_rows M0 c) -> (c < ncols M0)%nat ->
                  colsum M' c == 1).
Proof.
  intros Hnn. unfold normalize_matrix. intros H.
  destruct (normalize_columns_spec M0 (build_entry_dict (nonzero M0) [])
              (entry_dict_of_nonzero M0) _ _ _ (keeps_pattern_refl M0 Hnn) H)
    as [K Hsum].
  split; [assumption|].
  intros r c Hin Hc. apply Hsum. left.
  now apply (nonzero_columns_In M0 r c).
Qed.

Lemma dict_get_enumerated_inv (ws : list string) :
  forall i k w,
    dict_get String.eqb (combine ws (seq i (List.length ws))) w = Some k ->
    exists j, k = (i + j)%nat /\ nth_error ws j = Some w.
Proof.
  induction ws as [|x ws IH]; intros i k w; simpl; [discriminate|].
  destruct (String.eqb_spec w x) as [->|Hne].
  - intros H. injection H as <-. exists 0%nat. split; [lia | reflexivity].
  - intros H. apply IH in H. destruct H as (j & -> & Hj).
    exists (S j). split; [lia | exact Hj].
Qed.


Lemma insertion_order_NoDup (l : list string) : NoDup (insertion_order l).
Proof.
  unfold insertion_order. apply NoDup_rev, NoDup_nodup.
Qed.

Lemma cell_of_rows_nonneg (rows : list (list Q)) :
  Forall (Forall (fun x => 0 <= x)) rows ->
  forall r c, 0 <= cell_of_rows rows r c.
Proof.
  intros Hrows r c. unfold cell_of_rows.
  destruct (nth_in_or_default c (nth r rows []) 0) as [Hin| ->];
    [|apply Qle_refl].
  destruct (nth_in_or_default r rows []) as [Hrow|Hdef].
  - rewrite Forall_forall in Hrows. specialize (Hrows _ Hrow).
    rewrite Forall_forall in Hrows. now apply Hrows.
  - rewrite Hdef in Hin. destruct c; destruct Hin.
Qed.

Lemma ab_model_nonneg (M : spmatrix) (r c : nat) :
  matrix ab_model = Some M -> 0 <= cell M r c.
Proof.
  intros H. injection H as <-. simpl. apply cell_of_rows_nonneg.
  repeat constructor; discriminate.
Qed.


Lemma get_bigram_prob_spec_witness :
  get_bigram_prob ab_model "b" "a" = Ok (7#10)
  /\ get_bigram_prob ab_model "a" "a" = Ok 0
  /\ (exists e, get_bigram_prob ab_model "a" "zz" = Raise e
                /\ unknown_word_error e).
Proof.
  pose proof (get_bigram_prob_spec ab_model "b" "a") as [_ Hb].
  pose proof (get_bigram_prob_spec ab_model "a" "a") as [_ Ha].
  pose proof (get_bigram_prob_spec ab_model "a" "zz") as [Hz _].
  split; [|split].
  - refine (proj2 (Hb 2%nat 1%nat _ eq_refl eq_refl eq_refl) _ _);
      simpl; lia.
  - refine (proj2 (Ha 1%nat 1%nat _ eq_refl eq_refl eq_refl) _ _);
      simpl; lia.
  - apply Hz. right. reflexivity.
Defined.

(* ================================================================= *)
(** * Further properties of the class *)

(* ----------------------------------------------------------------- *)
(** ** Vectors and probabilities *)

Lemma get_bigram_prob_cell (m : DS_matrix) (w prev : string) (x : Q) :
  get_bigram_prob m w prev = Ok x ->
  exists M pos prev_pos,
    matrix m = Some M
    /\ dict_get String.eqb (vocab_order m) w = Some pos
    /\ dict_get String.eqb (vocab_order m) prev = Some prev_pos
    /\ (pos < nrows M)%nat /\ (prev_pos < ncols M)%nat
    /\ x = cell M pos prev_pos.
Proof.
  unfold get_bigram_prob, in_vocab, dict_mem, dict_index, matrix_subscript,
    mat_get.
  destruct (dict_get String.eqb (vocab_order m) w) as [pos|];
    simpl; [|discriminate].
  destruct (dict_get String.eqb (vocab_order m) prev) as [ppos|];
    simpl; [|discriminate].
  destruct (matrix m) as [M|]; simpl; [|discriminate].
  destruct (pos <? nrows M)%nat eqn:Hr; simpl; [|discriminate].
  destruct (ppos <? ncols M)%nat eqn:Hc; simpl; [|discriminate].
  intros H. injection H as <-.
  apply Nat.ltb_lt in Hr, Hc. exists M, pos, ppos. repeat split; auto.
Qed.

Lemma get_vector_row (m : DS_matrix) (word : string) (v : list Q) :
  get_vector m word = Ok v ->
  exists M pos,
    matrix m = Some M
    /\ dict_get String.eqb (vocab_order m) word = Some pos
    /\ (pos < nrows M)%nat
    /\ v = map (cell M pos) (seq 0 (ncols M)).
Proof.
  unfold get_vector, in_vocab, dict_mem, dict_index, matrix_subscript, getrow.
  destruct (dict_get String.eqb (vocab_order m) word) as [pos|];
    simpl; [|discriminate].
  destruct (matrix m) as [M|]; simpl; [|discriminate].
  destruct (pos <? nrows M)%nat eqn:Hr; [|discriminate].
  intros H. injection H as <-. apply Nat.ltb_lt in Hr.
  exists M, pos. repeat split; auto.
Qed.

Lemma nth_error_row (f : nat -> Q) (n c : nat) :
  (c < n)%nat -> nth_error (map f (seq 0 n)) c = Some (f c).
Proof.
  intros Hc. rewrite nth_error_map, nth_error_seq.
  apply Nat.ltb_lt in Hc. now rewrite Hc.
Qed.

(** X1. [get_vector] raises "Word not in matrix" exactly for the words
    missing from [vocab_order]; a vector it returns has one coordinate
    per column of the matrix, the cells of the row of the word. *)
Theorem get_vector_spec (m : DS_matrix) (word : string) :
  (get_vector m word = Raise (Exception "Word not in matrix")
   <-> in_vocab m word = false)
  /\ (forall v,
         get_vector m word = Ok v ->
         exists M pos,
           matrix m = Some M
           /\ dict_get String.eqb (vocab_order m) word = Some pos
           /\ List.length v = ncols M
           /\ (forall c, (c < ncols M)%nat ->
                         nth_error v c = Some (cell M pos c))).
Proof.
  split.
  - unfold get_vector. destruct (in_vocab m word) eqn:Hw; simpl.
    + split; [|discriminate].
      unfold in_vocab in Hw. apply dict_mem_get in Hw as [pos Hpos].
      unfold dict_index, matrix_subscript, getrow. rewrite Hpos. simpl.
      destruct (matrix m); simpl; [|discriminate].
      destruct (_ <? _)%nat; discriminate.
    + tauto.
  - intros v Hv. apply get_vector_row in Hv.
    destruct Hv as (M & pos & HM & Hpos & _ & ->).
    exists M, pos. repeat split; auto.
    + now rewrite length_map, length_seq.
    + intros c Hc. now apply nth_error_row.
Qed.

(** X2. The two readings of the matrix agree: the bigram probability of
    [word] given [prev_word] is the coordinate of the vector of [word]
    at the row number of [prev_word]. *)
Theorem bigram_prob_is_vector_coordinate (m : DS_matrix)
    (word prev_word : string) (v : list Q) (x : Q) :
  get_vector m word = Ok v ->
  get_bigram_prob m word prev_word = Ok x ->
  exists prev_pos,
    dict_get String.eqb (vocab_order m) prev_word = Some prev_pos
    /\ nth_error v prev_pos = Some x.
Proof.
  intros Hv Hx.
  apply get_vector_row in Hv. destruct Hv as (M & pos & HM & Hpos & _ & ->).
  apply get_bigram_prob_cell in Hx.
  destruct Hx as (M' & pos' & ppos & HM' & Hpos' & Hppos & _ & Hc & ->).
  assert (M' = M) by congruence. assert (pos' = pos) by congruence. subst.
  exists ppos. split; [assumption|]. now apply nth_error_row.
Qed.

Lemma bigram_prob_is_vector_coordinate_witness :
  exists prev_pos,
    dict_get String.eqb (vocab_order ab_model) "a" = Some prev_pos
    /\ nth_error [2#5; 7#10; 0; 0] prev_pos = Some (7#10).
Proof.
  apply (bigram_prob_is_vector_coordinate ab_model "b" "a"); reflexivity.
Defined.

(* ----------------------------------------------------------------- *)
(** ** [get_sentence_prob]: range and sentinels *)

Lemma sentence_prob_loop_range (m : DS_matrix) (s : list string) :
  (forall M r c, matrix m = Some M -> 0 <= cell M r c /\ cell M r c <= 1) ->
  forall prob prev pr pv,
    0 <= prob /\ prob <= 1 ->
    sentence_prob_loop m s prob prev = Ok (pr, pv) ->
    0 <= pr /\ pr <= 1.
Proof.
  intros Hcells. induction s as [|w s IH]; intros prob prev pr pv Hp; simpl.
  - intros H. injection H as <- <-. exact Hp.
  - destruct (in_vocab m w); simpl; [|apply IH; exact Hp].
    destruct (get_bigram_prob m w prev) as [x| |] eqn:Hx; cbn [bind];
      try discriminate.
    apply IH.
    apply get_bigram_prob_cell in Hx.
    destruct Hx as (M & i & j & HM & _ & _ & _ & _ & ->).
    destruct (Hcells M i j HM). nra.
Qed.

(** X3. When every cell of the matrix lies in [[0, 1]], a sentence
    probability returned by [get_sentence_prob] lies in [[0, 1]]. *)
Theorem get_sentence_prob_range (m : DS_matrix) (s : list string) (p : Q) :
  (forall M r c, matrix m = Some M -> 0 <= cell M r c /\ cell M r c <= 1) ->
  get_sentence_prob m s = Ok p ->
  0 <= p /\ p <= 1.
Proof.
  intros Hcells. unfold get_sentence_prob.
  destruct (sentence_prob_loop m s 1 START) as [[pr pv]| |] eqn:Hloop;
    cbn [bind]; try discriminate.
  apply sentence_prob_loop_range in Hloop; [|assumption|lra].
  destruct (get_bigram_prob m END pv) as [x| |] eqn:Hx; cbn [bind];
    try discriminate.
  intros H. injection H as <-.
  apply get_bigram_prob_cell in Hx.
  destruct Hx as (M & i & j & HM & _ & _ & _ & _ & ->).
  destruct (Hcells M i j HM). nra.
Qed.

Lemma cell_of_rows_range (rows : list (list Q)) :
  Forall (Forall (fun x => 0 <= x /\ x <= 1)) rows ->
  forall r c, 0 <= cell_of_rows rows r c /\ cell_of_rows rows r c <= 1.
Proof.
  intros Hrows r c. unfold cell_of_rows.
  destruct (nth_in_or_default c (nth r rows []) 0) as [Hin| ->];
    [|lra].
  destruct (nth_in_or_default r rows []) as [Hrow|Hdef].
  - rewrite Forall_forall in Hrows. specialize (Hrows _ Hrow).
    rewrite Forall_forall in Hrows. now apply Hrows.
  - rewrite Hdef in Hin. destruct c; destruct Hin.
Qed.

Lemma ab_model_range (M : spmatrix) (r c : nat) :
  matrix ab_model = Some M -> 0 <= cell M r c /\ cell M r c <= 1.
Proof.
  intros H. injection H as <-. simpl. apply cell_of_rows_range.
  repeat constructor; discriminate.
Qed.

Lemma get_sentence_prob_range_witness :
  0 <= 84 # 250 /\ 84 # 250 <= 1.
Proof.
  apply (get_sentence_prob_range ab_model ["a"; "zz"; "b"]).
  - exact ab_model_range.
  - reflexivity.
Defined.

Lemma sentence_prob_loop_prev (m : DS_matrix) (s : list string) :
  forall prob prev pr pv,
    sentence_prob_loop m s prob prev = Ok (pr, pv) ->
    (pv = prev \/ in_vocab m prev = true) /\ (pv = prev \/ in_vocab m pv = true).
Proof.
  induction s as [|w s IH]; intros prob prev pr pv; simpl.
  - intros H. injection H as <- <-. split; now left.
  - destruct (in_vocab m w) eqn:Hw; simpl; [|apply IH].
    destruct (get_bigram_prob m w prev) as [x| |] eqn:Hx; cbn [bind];
      try discriminate.
    intros H. apply IH in H. destruct H as [_ H2].
    apply get_bigram_prob_cell in Hx.
    destruct Hx as (M & i & j & _ & _ & Hprev & _).
    assert (Hp : in_vocab m prev = true).
    { unfold in_vocab. apply dict_mem_get. eauto. }
    split; [now right|]. right. destruct H2 as [->|H2]; assumption.
Qed.

(** X4. [get_sentence_prob] returns a probability only on a model whose
    vocabulary holds both sentinels: without [START$_] or [END$_] every
    call raises, the empty sentence included. *)
Theorem get_sentence_prob_needs_sentinels (m : DS_matrix) (s : list string)
    (p : Q) :
  get_sentence_prob m s = Ok p ->
  in_vocab m START = true /\ in_vocab m END = true.
Proof.
  unfold get_sentence_prob.
  destruct (sentence_prob_loop m s 1 START) as [[pr pv]| |] eqn:Hloop;
    cbn [bind]; try discriminate.
  destruct (get_bigram_prob m END pv) as [x| |] eqn:Hx; cbn [bind];
    try discriminate.
  intros _. apply get_bigram_prob_cell in Hx.
  destruct Hx as (M & i & j & _ & Hend & Hpv & _).
  split.
  - apply sentence_prob_loop_prev in Hloop. destruct Hloop as [[->|H] _].
    + unfold in_vocab. apply dict_mem_get. eauto.
    + assumption.
  - unfold in_vocab. apply dict_mem_get. eauto.
Qed.

Lemma get_sentence_prob_needs_sentinels_witness :
  in_vocab ab_model START = true /\ in_vocab ab_model END = true.
Proof.
  apply (get_sentence_prob_needs_sentinels ab_model ["a"; "b"] (84 # 250)).
  reflexivity.
Defined.

(* ----------------------------------------------------------------- *)
(** ** [encode_sentence]: a sum of rows *)

Lemma in_vocab_get (m : DS_matrix) (w : string) :
  in_vocab m w = true
  <-> exists pos, dict_get String.eqb (vocab_order m) w = Some pos.
Proof.
  unfold in_vocab. apply dict_mem_get.
Qed.

Lemma collect_vectors_rows (m : DS_matrix) (M : spmatrix) (ws : list string) :
  matrix m = Some M ->
  forall acc vs,
    collect_vectors m ws acc = Ok vs ->
    vs = acc ++ map (fun p => map (cell M p) (seq 0 (ncols M)))
                    (token_rows m ws)
    /\ Forall (fun p => (p < nrows M)%nat) (token_rows m ws).
Proof.
  intros HM. induction ws as [|w ws IH]; intros acc vs; simpl.
  - intros H. injection H as <-. rewrite app_nil_r. now split.
  - unfold in_vocab, dict_mem.
    destruct (dict_get String.eqb (vocab_order m) (lower w)) as [pos|] eqn:Hp.
    + destruct (get_vector m (lower w)) as [v| |] eqn:Hv; cbn [bind];
        try discriminate.
      apply get_vector_row in Hv.
      destruct Hv as (M' & pos' & HM' & Hpos' & Hlt & ->).
      assert (M' = M) by congruence. assert (pos' = pos) by congruence.
      subst. intros H. apply IH in H. destruct H as [-> Hall].
      simpl. rewrite <- app_assoc. split; [reflexivity|].
      now constructor.
    + simpl. apply IH.
Qed.


Lemma vec_add_rows (f g : nat -> Q) (n : nat) :
  forall k, vec_add (map f (seq k n)) (map g (seq k n))
            = map (fun c => f c + g c) (seq k n).
Proof.
  induction n as [|n IH]; intros k; simpl; [reflexivity|].
  now rewrite IH.
Qed.

Lemma sum_of_rows (M : spmatrix) (n : nat) (ps : list nat) :
  forall f,
    fold_left vec_add (map (fun p => map (cell M p) (seq 0 n)) ps)
              (map f (seq 0 n))
    = map (fun c => fold_left Qplus (map (fun p => cell M p c) ps) (f c))
          (seq 0 n).
Proof.
  induction ps as [|p ps IH]; intros f; simpl.
  - reflexivity.
  - rewrite vec_add_rows. apply (IH (fun c => f c + cell M p c)).
Qed.

Lemma Forall2_Qeq_map {A : Type} (f g : A -> Q) (l : list A) :
  (forall a, f a == g a) -> Forall2 Qeq (map f l) (map g l).
Proof.
  intros H. induction l; simpl; constructor; auto.
Qed.



Lemma np_zeros_row (n : nat) :
  forall k, np_zeros n = map (fun _ => 0) (seq k n).
Proof.
  unfold np_zeros. induction n as [|n IH]; intros k; simpl; [reflexivity|].
  now rewrite (IH (S k)).
Qed.

(** X5. The vector returned by [encode_sentence] is, coordinate by
    coordinate, the sum of the matrix rows of the known lower-cased
    tokens (all of them rows of the matrix); unknown tokens add nothing. *)
Theorem encode_sentence_row_sum (tok : string -> list string)
    (m : DS_matrix) (M : spmatrix) (sent : string) (v : list Q) :
  matrix m = Some M ->
  encode_sentence tok m sent = Ok v ->
  Forall2 Qeq v (row_sum M (token_rows m (tok sent)))
  /\ Forall (fun p => (p < nrows M)%nat) (token_rows m (tok sent)).
Proof.
  intros HM. unfold encode_sentence.
  destruct (collect_vectors m (tok sent) []) as [vs| |] eqn:Hc;
    cbn [bind]; try discriminate.
  apply (collect_vectors_rows m M _ HM) in Hc. destruct Hc as [Hvs Hall].
  simpl in Hvs. split; [|assumption]. unfold row_sum.
  destruct (token_rows m (tok sent)) as [|p ps]; simpl in Hvs; subst vs.
  - unfold matrix_attr in H. rewrite HM in H. simpl in H.
    injection H as <-. rewrite (np_zeros_row _ 0).
    apply Forall2_Qeq_map. intros c. reflexivity.
  - injection H as <-. unfold np_sum_axis0. rewrite sum_of_rows.
    apply Forall2_Qeq_map. intros c.
    rewrite Qsum_from. simpl. rewrite Qsum_cons. reflexivity.
Qed.

Lemma encode_sentence_row_sum_witness :
  Forall2 Qeq [25 # 25; 0.7; 1 # 5; 0]
    (row_sum ab_cells (token_rows ab_model (space_tokenize "a B c")))
  /\ Forall (fun p => (p < nrows ab_cells)%nat)
            (token_rows ab_model (space_tokenize "a B c")).
Proof.
  apply (encode_sentence_row_sum space_tokenize ab_model ab_cells "a B c");
    reflexivity.
Defined.





Lemma collect_vectors_known (m : DS_matrix) (ws : list string) :
  forall acc,
    collect_vectors m ws acc
    = collect_vectors m (filter (fun t => in_vocab m (lower t)) ws) acc.
Proof.
  induction ws as [|w ws IH]; intros acc; simpl; [reflexivity|].
  destruct (in_vocab m (lower w)) eqn:Hw; simpl.
  - rewrite Hw. destruct (get_vector m (lower w)); cbn [bind]; auto.
  - apply IH.
Qed.

Lemma collect_vectors_lower (m : DS_matrix) (ws : list string) :
  forall ws' acc,
    map lower ws = map lower ws' ->
    collect_vectors m ws acc = collect_vectors m ws' acc.
Proof.
  induction ws as [|w ws IH]; intros [|w' ws'] acc Heq; simpl in Heq;
    try discriminate; [reflexivity|].
  injection Heq as Hw Hrest. simpl. rewrite Hw.
  destruct (in_vocab m (lower w')); [|now apply IH].
  destruct (get_vector m (lower w')); cbn [bind]; auto.
Qed.

Lemma filter_known_lower (m : DS_matrix) (ws : list string) :
  filter (in_vocab m) (map lower ws)
  = map lower (filter (fun t => in_vocab m (lower t)) ws).
Proof.
  induction ws as [|w ws IH]; simpl; [reflexivity|].
  destruct (in_vocab m (lower w)); simpl; now rewrite IH.
Qed.

(** X7. The encoding depends on the text only through its known
    lower-cased tokens: two texts with the same ones are encoded alike,
    whatever their capitals and their unknown tokens. *)
Theorem encode_sentence_known_tokens (tok : string -> list string)
    (m : DS_matrix) (s1 s2 : string) :
  filter (in_vocab m) (map lower (tok s1))
  = filter (in_vocab m) (map lower (tok s2)) ->
  encode_sentence tok m s1 = encode_sentence tok m s2.
Proof.
  rewrite !filter_known_lower. intros Heq. unfold encode_sentence.
  rewrite (collect_vectors_known m (tok s1)),
    (collect_vectors_known m (tok s2)).
  now rewrite (collect_vectors_lower m _ _ [] Heq).
Qed.

Lemma encode_sentence_known_tokens_witness :
  encode_sentence space_tokenize ab_model "A x b"
  = encode_sentence space_tokenize ab_model "a B y".
Proof.
  apply (encode_sentence_known_tokens space_tokenize ab_model).
  reflexivity.
Defined.

(* ----------------------------------------------------------------- *)
(** ** [generate_bigram_sentence]: what a sentence is made of *)

Lemma list_index_In {A : Type} (l : list A) (i : nat) (x : A) :
  list_index l i = Ok x -> In x l.
Proof.
  unfold list_index. destruct (nth_error l i) eqn:H; [|discriminate].
  intros E. injection E as <-. eapply nth_error_In; eassumption.
Qed.

Lemma reroll_from_words (words : list string) (p : list Q) (draws : list Q) :
  forall word w ds,
    reroll words p word draws = Ok (w, ds) ->
    (w = word \/ In w words) /\ (List.length ds <= List.length draws)%nat.
Proof.
  induction draws as [|u draws IH]; intros word w ds; simpl.
  - destruct (String.eqb word START); [discriminate|].
    intros H. injection H as <- <-. split; [now left | simpl; lia].
  - destruct (String.eqb word START).
    + destruct (random_choice _ p u) as [i| |]; cbn [bind]; try discriminate.
      destruct (list_index words i) as [w'| |] eqn:Hw'; cbn [bind];
        try discriminate.
      intros H. apply IH in H. destruct H as [[->|Hin] Hlen].
      * split; [right; eapply list_index_In; eassumption | simpl; lia].
      * split; [now right | simpl; lia].
    + intros H. injection H as <- <-. split; [now left | simpl; lia].
Qed.

Lemma sample_next_from_words (m : DS_matrix) (words : list string)
    (word : string) (draws : list Q) (w : string) (ds : list Q) :
  sample_next m words word draws = Ok (w, ds) ->
  In w words /\ (List.length ds < List.length draws)%nat.
Proof.
  unfold sample_next.
  destruct (dict_index String.eqb (vocab_order m) word) as [pos| |];
    cbn [bind]; try discriminate.
  destruct (matrix_attr m) as [M| |]; cbn [bind]; try discriminate.
  destruct (getcol M pos) as [pl| |]; cbn [bind]; try discriminate.
  destruct (Qeq_bool (Qsum pl) 0).
  - destruct (mapM (get_unigram_prob m) words) as [ul| |]; cbn [bind];
      try discriminate.
    destruct draws as [|u draws]; [discriminate|].
    destruct (random_choice _ ul u) as [i| |]; cbn [bind]; try discriminate.
    destruct (list_index words i) as [w'| |] eqn:Hw'; cbn [bind];
      try discriminate.
    intros H. apply reroll_from_words in H. destruct H as [[->|Hin] Hlen].
    + split; [eapply list_index_In; eassumption | simpl; lia].
    + split; [assumption | simpl; lia].
  - destruct draws as [|u draws]; [discriminate|].
    destruct (random_choice _ pl u) as [i| |]; cbn [bind]; try discriminate.
    destruct (list_index words i) as [w'| |] eqn:Hw'; cbn [bind];
      try discriminate.
    intros H. injection H as <- <-.
    split; [eapply list_index_In; eassumption | simpl; lia].
Qed.

Lemma generate_loop_words (m : DS_matrix) (words : list string) (fuel : nat) :
  forall word sentence draws s,
    generate_loop fuel m words word sentence draws = Ok s ->
    ~ In END sentence ->
    (forall w, In w sentence -> In w words) ->
    ~ In END s
    /\ (forall w, In w s -> In w words)
    /\ (List.length s <= List.length sentence + List.length draws)%nat.
Proof.
  induction fuel as [|fuel IH]; intros word sentence draws s; simpl.
  - destruct (String.eqb word END); [|discriminate].
    intros H. injection H as <-. intros. repeat split; auto; lia.
  - destruct (String.eqb word END).
    { intros H. injection H as <-. intros. repeat split; auto; lia. }
    destruct (sample_next m words word draws) as [[w ds]| |] eqn:Hn;
      cbn [bind]; try discriminate.
    apply sample_next_from_words in Hn. destruct Hn as [Hw Hlen].
    destruct (String.eqb_spec w END) as [->|Hne].
    { intros H. injection H as <-. intros. repeat split; auto; lia. }
    intros H Hend Hin. apply IH in H.
    + destruct H as (H1 & H2 & H3). repeat split; auto.
      rewrite length_app in H3. simpl in H3. lia.
    + intros Hi. apply in_app_or in Hi. destruct Hi as [Hi|[Hi|[]]]; auto.
    + intros x Hx. apply in_app_or in Hx. destruct Hx as [Hx|[<-|[]]]; auto.
Qed.

(** X8. A sentence returned by [generate_bigram_sentence] never contains
    the end sentinel, is made of words of the vocabulary only, and has at
    most one word per random draw. *)
Theorem generate_bigram_sentence_words (m : DS_matrix) (start_word : string)
    (draws : list Q) (s : list string) :
  generate_bigram_sentence m start_word draws = Ok s ->
  ~ In END s
  /\ (forall w, In w s -> in_vocab m w = true)
  /\ (List.length s <= List.length draws)%nat.
Proof.
  unfold generate_bigram_sentence.
  destruct (negb (in_vocab m _)); [discriminate|].
  intros H. apply generate_loop_words in H.
  - destruct H as (H1 & H2 & H3). repeat split; auto.
    intros w Hw. unfold in_vocab. apply dict_mem_In. now apply H2.
  - intros [].
  - intros w [].
Qed.

Lemma generate_bigram_sentence_words_witness :
  ~ In END ["a"; "b"]
  /\ (forall w, In w ["a"; "b"] -> in_vocab ab_model w = true)
  /\ (List.length ["a"; "b"] <= List.length [0%Q; 0%Q; (9#10)%Q])%nat.
Proof.
  apply (generate_bigram_sentence_words ab_model START [0; 0; 9#10]).
  reflexivity.
Defined.

Lemma reroll_errors (words : list string) (p : list Q) (draws : list Q) :
  forall word e, reroll words p word draws = Raise e -> builtin_error e.
Proof.
  unfold builtin_error.
  induction draws as [|u draws IH]; intros word e; simpl.
  - destruct (String.eqb word START); discriminate.
  - destruct (String.eqb word START); [|discriminate].
    unfold random_choice, list_index.
    repeat match goal with
           | |- context [if ?c then _ else _] => destruct c
           end; cbn [bind]; try (intros H; injection H as <-; tauto).
    destruct (nth_error words _); cbn [bind].
    + apply IH.
    + intros H; injection H as <-; tauto.
Qed.

Lemma mapM_unigram_errors (m : DS_matrix) (words : list string) (e : exn) :
  mapM (get_unigram_prob m) words = Raise e -> e = KeyError.
Proof.
  induction words as [|w words IH]; simpl; [discriminate|].
  unfold get_unigram_prob at 1, dict_index.
  destruct (dict_get String.eqb (unigram_probs m) w); cbn [bind].
  - destruct (mapM (get_unigram_prob m) words); cbn [bind];
      try discriminate. intros H. injection H as <-. now apply IH.
  - congruence.
Qed.

Lemma sample_next_errors (m : DS_matrix) (words : list string)
    (word : string) (draws : list Q) (e : exn) :
  sample_next m words word draws = Raise e -> builtin_error e.
Proof.
  unfold sample_next, dict_index, matrix_attr, getcol.
  destruct (dict_get String.eqb (vocab_order m) word); cbn [bind];
    [|intros H; injection H as <-; unfold builtin_error; tauto].
  destruct (matrix m) as [M|]; cbn [bind];
    [|intros H; injection H as <-; unfold builtin_error; tauto].
  destruct (_ <? _)%nat; cbn [bind];
    [|intros H; injection H as <-; unfold builtin_error; tauto].
  destruct (Qeq_bool _ 0).
  - destruct (mapM (get_unigram_prob m) words) as [ul| |] eqn:Hu;
      cbn [bind]; try discriminate.
    + destruct draws as [|u draws]; [discriminate|].
      unfold random_choice, list_index.
      repeat match goal with
             | |- context [if ?c then _ else _] => destruct c
             end; cbn [bind];
        try (intros H; injection H as <-; unfold builtin_error; tauto).
      destruct (nth_error words _); cbn [bind].
      * apply reroll_errors.
      * intros H; injection H as <-; unfold builtin_error; tauto.
    + intros H. injection H as <-. apply mapM_unigram_errors in Hu.
      subst. unfold builtin_error. tauto.
  - destruct draws as [|u draws]; [discriminate|].
    unfold random_choice, list_index.
    repeat match goal with
           | |- context [if ?c then _ else _] => destruct c
           end; cbn [bind];
      try (intros H; injection H as <-; unfold builtin_error; tauto).
    destruct (nth_error words _); cbn [bind]; [discriminate|].
    intros H; injection H as <-; unfold builtin_error; tauto.
Qed.

Lemma generate_loop_errors (m : DS_matrix) (words : list string)
    (fuel : nat) :
  forall word sentence draws e,
    generate_loop fuel m words word sentence draws = Raise e ->
    builtin_error e.
Proof.
  induction fuel as [|fuel IH]; intros word sentence draws e; simpl.
  - destruct (String.eqb word END); discriminate.
  - destruct (String.eqb word END); [discriminate|].
    destruct (sample_next m words word draws) as [[w ds]| |] eqn:Hn;
      cbn [bind]; try discriminate.
    + destruct (String.eqb w END); [discriminate | apply IH].
    + intros H. injection H as <-. eapply sample_next_errors; eassumption.
Qed.

(** X9. [generate_bigram_sentence] raises "given start_word not in
    matrix" exactly when the start word, lower-cased unless it is a
    sentinel, is missing from the vocabulary: no draw can lead to that
    exception.  Started from a known [END$_] it returns the empty sentence
    without drawing. *)
Theorem generate_bigram_sentence_start_word (m : DS_matrix)
    (start_word : string) (draws : list Q) :
  (generate_bigram_sentence m start_word draws
   = Raise (Exception "given start_word not in matrix")
   <-> in_vocab m (start_word_key start_word) = false)
  /\ (in_vocab m END = true ->
      generate_bigram_sentence m END draws = Ok []).
Proof.
  split.
  - unfold generate_bigram_sentence. fold (start_word_key start_word).
    destruct (in_vocab m (start_word_key start_word)) eqn:Hin; simpl negb;
      cbv iota.
    + split; [|discriminate]. intros H.
      apply generate_loop_errors in H. unfold builtin_error in H.
      repeat destruct H as [H|H]; discriminate.
    + tauto.
  - intros Hend. unfold generate_bigram_sentence. simpl.
    rewrite Hend. reflexivity.
Qed.

Lemma generate_bigram_sentence_start_word_witness :
  generate_bigram_sentence ab_model END [1#2] = Ok [].
Proof.
  apply (proj2 (generate_bigram_sentence_start_word ab_model "Zed" [1#2])).
  reflexivity.
Defined.

(* ----------------------------------------------------------------- *)
(** ** [less_words_matrix]: the reduced model *)

Lemma dict_get_set_string {V : Type} (d : list (string * V))
    (k k' : string) (v : V) :
  dict_get String.eqb (dict_set String.eqb d k v) k'
  = if String.eqb k' k then Some v else dict_get String.eqb d k'.
Proof.
  induction d as [|[k0 v0] d IH]; simpl.
  - reflexivity.
  - destruct (String.eqb_spec k k0) as [Heq|Hne]; simpl.
    + rewrite Heq. destruct (String.eqb k' k0); reflexivity.
    + rewrite IH. destruct (String.eqb_spec k' k0) as [Heq'|Hne'].
      * rewrite Heq'. destruct (String.eqb_spec k0 k); [congruence|].
        reflexivity.
      * reflexivity.
Qed.

(** What [copy_rows] copies: the row and the unigram probability of every
    word of the list; the rows above [i] are left alone. *)
Lemma copy_rows_rows (self : DS_matrix) (selfM : spmatrix)
    (ws : list string) :
  forall i new newM new' newM',
    copy_rows self selfM ws i new newM = Ok (new', newM') ->
    (forall j w,
        nth_error ws j = Some w ->
        exists pos u,
          dict_get String.eqb (vocab_order self) w = Some pos
          /\ (pos < nrows selfM)%nat
          /\ dict_get String.eqb (unigram_probs self) w = Some u
          /\ dict_get String.eqb (unigram_probs new') w = Some u
          /\ (forall c, cell newM' (i + j) c = cell selfM pos c))
    /\ (forall r c, (r < i)%nat -> cell newM' r c = cell newM r c)
    /\ (forall w, ~ In w ws ->
                  dict_get String.eqb (unigram_probs new') w
                  = dict_get String.eqb (unigram_probs new) w).
Proof.
  induction ws as [|w ws IH]; intros i new newM new' newM'; simpl.
  - intros H. injection H as <- <-. repeat split; auto.
    intros [|j] w Hj; discriminate.
  - unfold dict_index.
    destruct (dict_get String.eqb (unigram_probs self) w) as [u|] eqn:Hu;
      cbn [bind]; try discriminate.
    destruct (dict_get String.eqb (vocab_order self) w) as [pos|] eqn:Hp;
      cbn [bind]; try discriminate.
    destruct (pos <? nrows selfM)%nat eqn:Hlt; [|discriminate].
    apply Nat.ltb_lt in Hlt.
    intros H. apply IH in H. destruct H as (Hrows & Habove & Huni).
    simpl in Habove, Huni.
    split; [|split].
    + intros [|j] w' Hj; simpl in Hj.
      * injection Hj as <-. exists pos, u. repeat split; auto.
        -- destruct (in_dec string_dec w ws) as [Hin|Hout].
           ++ apply In_nth_error in Hin. destruct Hin as [k Hk].
              destruct (Hrows k w Hk) as (pos' & u' & _ & _ & Hu' & Hn & _).
              congruence.
           ++ rewrite (Huni w Hout), dict_get_set_string.
              now rewrite String.eqb_refl.
        -- intros c. rewrite Nat.add_0_r, Habove by lia. simpl.
           now rewrite Nat.eqb_refl.
      * destruct (Hrows j w' Hj) as (pos' & u' & H1 & H2 & H3 & H4 & H5).
        exists pos', u'. repeat split; auto.
        intros c. rewrite <- H5. f_equal. lia.
    + intros r c Hr. rewrite Habove by lia. simpl.
      destruct (Nat.eqb_spec r i); [lia | reflexivity].
    + intros w' Hout. rewrite Huni by tauto.
      rewrite dict_get_set_string.
      destruct (String.eqb_spec w' w) as [->|Hne]; [|reflexivity].
      exfalso. apply Hout. now left.
Qed.

Lemma copy_rows_returns (self : DS_matrix) (selfM : spmatrix)
    (ws : list string) :
  (forall w, In w ws ->
             (exists u, dict_get String.eqb (unigram_probs self) w = Some u)
             /\ (exists pos,
                    dict_get String.eqb (vocab_order self) w = Some pos
                    /\ (pos < nrows selfM)%nat)) ->
  forall i new newM, exists r, copy_rows self selfM ws i new newM = Ok r.
Proof.
  induction ws as [|w ws IH]; intros Hall i new newM; simpl.
  - eauto.
  - destruct (Hall w (or_introl eq_refl)) as [[u Hu] (pos & Hp & Hlt)].
    unfold dict_index. rewrite Hu, Hp. cbn [bind].
    apply Nat.ltb_lt in Hlt. rewrite Hlt.
    apply IH. intros w' Hw'. apply Hall. now right.
Qed.

(** The parts of a call of [less_words_matrix] that returns. *)
Lemma less_words_matrix_parts (set_iter : list string -> list string)
    (self : DS_matrix) (word_set : list string) (normalize : bool)
    (new : DS_matrix) :
  less_words_matrix set_iter self word_set normalize = Ok new ->
  exists selfM nm newM newM',
    matrix self = Some selfM
    /\ copy_rows self selfM (set_iter (retained_words self word_set)) 0
                 empty_DS_matrix
                 (lil_matrix
                    (List.length (set_iter (retained_words self word_set)),
                     ncols selfM))
       = Ok (nm, newM)
    /\ (if normalize then normalize_matrix newM else Ok newM) = Ok newM'
    /\ new = {| matrix := Some newM'; vocab_order := vocab_order nm;
                unigram_probs := unigram_probs nm |}.
Proof.
  unfold less_words_matrix. cbv zeta. fold (retained_words self word_set).
  unfold matrix_attr.
  destruct (matrix self) as [selfM|]; cbn [bind]; try discriminate.
  destruct (copy_rows _ _ _ _ _ _) as [[nm newM]| |] eqn:Hcopy; cbn [bind];
    try discriminate.
  destruct (if normalize then _ else _) as [newM'| |] eqn:Hn; cbn [bind];
    try discriminate.
  intros H. injection H as <-. exists selfM, nm, newM, newM'. auto.
Qed.

Lemma retained_words_In (self : DS_matrix) (word_set : list string)
    (w : string) :
  In w (retained_words self word_set)
  <-> in_vocab self w = true /\ (In w word_set \/ w = START \/ w = END).
Proof.
  unfold retained_words.
  destruct (in_vocab self START) eqn:Hs, (in_vocab self END) eqn:He;
    rewrite ?in_app_iff, filter_In; simpl; split; intros H.
  - destruct H as [[[H1 H2]|[<-|[]]]|[<-|[]]]; auto.
  - destruct H as [Hv [H|[-> | ->]]]; auto.
  - destruct H as [[H1 H2]|[<-|[]]]; auto.
  - destruct H as [Hv [H|[-> | ->]]]; auto. congruence.
  - destruct H as [[H1 H2]|[<-|[]]]; auto.
  - destruct H as [Hv [H|[-> | ->]]]; auto. congruence.
  - destruct H as [H1 H2]; auto.
  - destruct H as [Hv [H|[-> | ->]]]; auto; congruence.
Qed.

(** X10. The vocabulary of the reduced model: the words of [word_set]
    that the model knows, and the sentinels it knows; words missing from
    the model are ignored. *)
Theorem less_words_matrix_vocabulary (set_iter : list string -> list string)
    (self : DS_matrix) (word_set : list string) (normalize : bool)
    (new : DS_matrix) (w : string) :
  (forall l, NoDup (set_iter l)) ->
  (forall l x, In x (set_iter l) <-> In x l) ->
  less_words_matrix set_iter self word_set normalize = Ok new ->
  (in_vocab new w = true
   <-> in_vocab self w = true /\ (In w word_set \/ w = START \/ w = END)).
Proof.
  intros Hnd Hin Hless.
  apply less_words_matrix_parts in Hless.
  destruct Hless as (selfM & nm & newM & newM' & HM & Hcopy & _ & ->).
  apply copy_rows_spec in Hcopy; [|apply Hnd|simpl; tauto].
  destruct Hcopy as (Hv & _). simpl in Hv.
  unfold in_vocab at 1. simpl. rewrite dict_mem_In, Hv, dict_keys_enumerated.
  rewrite Hin. apply retained_words_In.
Qed.

Lemma insertion_order_In (l : list string) (x : string) :
  In x (insertion_order l) <-> In x l.
Proof.
  unfold insertion_order. rewrite <- in_rev, nodup_In, <- in_rev. tauto.
Qed.

Lemma less_words_matrix_vocabulary_witness :
  in_vocab reduced_ab "a" = true
  <-> in_vocab ab_model "a" = true
      /\ (In "a" ["a"; "q"] \/ "a" = START \/ "a" = END).
Proof.
  apply (less_words_matrix_vocabulary insertion_order ab_model ["a"; "q"]
           true reduced_ab "a").
  - exact insertion_order_NoDup.
  - exact insertion_order_In.
  - vm_compute. reflexivity.
Defined.

(** The facts that tie a word of the reduced model to the full model. *)
Lemma less_words_matrix_word (set_iter : list string -> list string)
    (self : DS_matrix) (word_set : list string) (normalize : bool)
    (new : DS_matrix) (w : string) (j : nat) :
  (forall l, NoDup (set_iter l)) ->
  less_words_matrix set_iter self word_set normalize = Ok new ->
  dict_get String.eqb (vocab_order new) w = Some j ->
  exists selfM newM newM' pos u,
    matrix self = Some selfM
    /\ (if normalize then normalize_matrix newM else Ok newM) = Ok newM'
    /\ matrix new = Some newM'
    /\ nrows newM = List.length (set_iter (retained_words self word_set))
    /\ ncols newM = ncols selfM
    /\ (j < nrows newM)%nat
    /\ dict_get String.eqb (vocab_order self) w = Some pos
    /\ (pos < nrows selfM)%nat
    /\ dict_get String.eqb (unigram_probs self) w = Some u
    /\ dict_get String.eqb (unigram_probs new) w = Some u
    /\ (forall c, cell newM j c = cell selfM pos c).
Proof.
  intros Hnd Hless Hj.
  apply less_words_matrix_parts in Hless.
  destruct Hless as (selfM & nm & newM & newM' & HM & Hcopy & Hnorm & ->).
  pose proof Hcopy as Hspec.
  apply copy_rows_spec in Hspec; [|apply Hnd|simpl; tauto].
  destruct Hspec as (Hv & Hnr & Hnc & _). simpl in Hv, Hnr, Hnc, Hj.
  rewrite Hv in Hj. apply dict_get_enumerated_inv in Hj.
  destruct Hj as (j' & -> & Hj). simpl.
  apply copy_rows_rows in Hcopy. destruct Hcopy as (Hrows & _ & _).
  destruct (Hrows j' w Hj) as (pos & u & H1 & H2 & H3 & H4 & H5).
  exists selfM, newM, newM', pos, u. simpl. repeat split; auto.
  rewrite Hnr. apply nth_error_Some. congruence.
Qed.

(** X11. Without normalization every word of the reduced model keeps its
    encoding and its unigram probability: [get_vector] and
    [get_unigram_prob] answer on the reduced model as on the full one. *)
Theorem less_words_matrix_keeps_vectors
    (set_iter : list string -> list string) (self : DS_matrix)
    (word_set : list string) (new : DS_matrix) (w : string) :
  (forall l, NoDup (set_iter l)) ->
  less_words_matrix set_iter self word_set false = Ok new ->
  in_vocab new w = true ->
  get_vector new w = get_vector self w
  /\ get_unigram_prob new w = get_unigram_prob self w
  /\ exists v, get_vector self w = Ok v.
Proof.
  intros Hnd Hless Hw. apply in_vocab_get in Hw. destruct Hw as [j Hj].
  destruct (less_words_matrix_word _ _ _ _ _ _ _ Hnd Hless Hj)
    as (selfM & newM & newM' & pos & u & HM & Hn & HM' & Hnr & Hnc & Hlt
        & Hpos & Hplt & Hu & Hu' & Hcell).
  injection Hn as <-.
  assert (Hself : get_vector self w
                  = Ok (map (cell selfM pos) (seq 0 (ncols selfM)))).
  { unfold get_vector, in_vocab, dict_mem, dict_index, matrix_subscript,
      getrow. rewrite Hpos, HM. simpl.
    apply Nat.ltb_lt in Hplt. now rewrite Hplt. }
  split; [|split].
  - rewrite Hself.
    unfold get_vector, in_vocab, dict_mem, dict_index, matrix_subscript,
      getrow. rewrite Hj, HM'. simpl.
    apply Nat.ltb_lt in Hlt. rewrite Hlt, Hnc. f_equal.
    apply map_ext. exact Hcell.
  - unfold get_unigram_prob, dict_index. now rewrite Hu, Hu'.
  - eauto.
Qed.

Lemma less_words_matrix_keeps_vectors_witness :
  get_vector reduced_b "b" = get_vector ab_model "b"
  /\ get_unigram_prob reduced_b "b" = get_unigram_prob ab_model "b"
  /\ exists v, get_vector ab_model "b" = Ok v.
Proof.
  apply (less_words_matrix_keeps_vectors insertion_order ab_model ["b"]).
  - exact insertion_order_NoDup.
  - vm_compute. reflexivity.
  - reflexivity.
Defined.

(** X12. In the reduced model the bigram lookup numbers the column by
    the row of the previous word in the reduced vocabulary, while the
    columns are still those of the full matrix: the probability answered
    for [(w1, w2)] is the one the full model gives for [(w1, w')], where
    [w'] is the word whose row number in the full model is the row
    number of [w2] in the reduced model. *)
Theorem less_words_matrix_bigram_column
    (set_iter : list string -> list string) (self : DS_matrix)
    (word_set : list string) (new : DS_matrix) (w1 w2 w' : string)
    (j2 : nat) (x : Q) :
  (forall l, NoDup (set_iter l)) ->
  less_words_matrix set_iter self word_set false = Ok new ->
  get_bigram_prob new w1 w2 = Ok x ->
  dict_get String.eqb (vocab_order new) w2 = Some j2 ->
  dict_get String.eqb (vocab_order self) w' = Some j2 ->
  get_bigram_prob self w1 w' = Ok x.
Proof.
  intros Hnd Hless Hx Hj2 Hw'.
  apply get_bigram_prob_cell in Hx.
  destruct Hx as (M' & j1 & j2' & HM' & Hj1 & Hj2' & Hr & Hc & ->).
  assert (j2' = j2) by congruence. subst j2'.
  destruct (less_words_matrix_word _ _ _ _ _ _ _ Hnd Hless Hj1)
    as (selfM & newM & newM' & pos & u & HM & Hn & HMn & Hnr & Hnc & Hlt
        & Hpos & Hplt & _ & _ & Hcell).
  injection Hn as <-. assert (M' = newM) by congruence. subst M'.
  unfold get_bigram_prob, in_vocab, dict_mem, dict_index, matrix_subscript,
    mat_get. rewrite Hpos, Hw', HM. simpl.
  rewrite Hnc in Hc. apply Nat.ltb_lt in Hplt, Hc. rewrite Hplt, Hc. simpl.
  now rewrite Hcell.
Qed.

Lemma less_words_matrix_bigram_column_witness :
  get_bigram_prob ab_model "b" "a" = Ok (7#10).
Proof.
  apply (less_words_matrix_bigram_column insertion_order ab_model ["b"]
           reduced_b "b" START "a" 1%nat (7#10)).
  - exact insertion_order_NoDup.
  - vm_compute. reflexivity.
  - vm_compute. reflexivity.
  - reflexivity.
  - reflexivity.
Defined.

Lemma rows_of_In (c r : nat) (nz : list (nat * nat)) :
  In (r, c) nz -> In r (rows_of c nz).
Proof.
  intros H. unfold rows_of. apply in_map_iff. exists (r, c).
  split; [reflexivity|]. apply filter_In. split; [assumption|].
  simpl. apply Nat.eqb_refl.
Qed.

Lemma normalize_columns_returns (d : list (nat * list nat))
    (columns : list nat) :
  (forall c, In c columns -> exists rows, dict_index Nat.eqb d c = Ok rows) ->
  forall M, exists M', normalize_columns columns d M = Ok M'.
Proof.
  induction columns as [|col rest IH]; intros Hd M; simpl.
  - eauto.
  - destruct (Hd col (or_introl eq_refl)) as [rows Hrows].
    rewrite Hrows. cbn [bind]. apply IH.
    intros c Hc. apply Hd. now right.
Qed.

(** The normalization never raises. *)
Lemma normalize_matrix_returns (M : spmatrix) :
  exists M', normalize_matrix M = Ok M'.
Proof.
  unfold normalize_matrix. apply normalize_columns_returns.
  intros c Hc. apply in_map_iff in Hc. destruct Hc as ([r c'] & <- & Hin).
  simpl. unfold dict_index. rewrite build_entry_dict_get. simpl.
  apply rows_of_In in Hin.
  destruct (rows_of c' (nonzero M)); [destruct Hin | eauto].
Qed.

(** X13. [less_words_matrix] returns a model exactly when the model has
    a matrix and every word it retains has a unigram probability and a
    row inside the matrix; otherwise it raises. *)
Theorem less_words_matrix_returns (set_iter : list string -> list string)
    (self : DS_matrix) (word_set : list string) (normalize : bool) :
  (forall l x, In x (set_iter l) <-> In x l) ->
  ((exists new, less_words_matrix set_iter self word_set normalize = Ok new)
   <-> exists M,
        matrix self = Some M
        /\ forall w,
            in_vocab self w = true ->
            In w word_set \/ w = START \/ w = END ->
            (exists u, dict_get String.eqb (unigram_probs self) w = Some u)
            /\ (exists pos,
                   dict_get String.eqb (vocab_order self) w = Some pos
                   /\ (pos < nrows M)%nat)).
Proof.
  intros Hin. split.
  - intros [new Hless]. apply less_words_matrix_parts in Hless.
    destruct Hless as (selfM & nm & newM & newM' & HM & Hcopy & _ & _).
    exists selfM. split; [assumption|]. intros w Hv Hw.
    assert (Hret : In w (set_iter (retained_words self word_set))).
    { apply Hin, retained_words_In. now split. }
    apply In_nth_error in Hret. destruct Hret as [j Hj].
    apply copy_rows_rows in Hcopy. destruct Hcopy as (Hrows & _ & _).
    destruct (Hrows j w Hj) as (pos & u & H1 & H2 & H3 & _). eauto.
  - intros (M & HM & Hall).
    unfold less_words_matrix. cbv zeta. fold (retained_words self word_set).
    unfold matrix_attr. rewrite HM. cbn [bind].
    destruct (copy_rows_returns self M
                (set_iter (retained_words self word_set))) with
      (i := 0%nat) (new := empty_DS_matrix)
      (newM := lil_matrix
                 (List.length (set_iter (retained_words self word_set)),
                  ncols M)) as [[nm newM] Hcopy].
    { intros w Hw. apply Hin, retained_words_In in Hw.
      destruct Hw as [Hv Hw]. now apply Hall. }
    rewrite Hcopy. cbn [bind]. destruct normalize.
    + destruct (normalize_matrix_returns newM) as [M' HM'].
      rewrite HM'. cbn [bind]. eauto.
    + cbn [bind]. eauto.
Qed.

Lemma less_words_matrix_returns_witness :
  (exists new, less_words_matrix insertion_order ab_model ["a"; "q"] true
               = Ok new)
  <-> exists M,
       matrix ab_model = Some M
       /\ forall w,
           in_vocab ab_model w = true ->
           In w ["a"; "q"] \/ w = START \/ w = END ->
           (exists u, dict_get String.eqb (unigram_probs ab_model) w = Some u)
           /\ (exists pos,
                  dict_get String.eqb (vocab_order ab_model) w = Some pos
                  /\ (pos < nrows M)%nat).
Proof.
  apply (less_words_matrix_returns insertion_order ab_model ["a"; "q"] true).
  exact insertion_order_In.
Defined.

Lemma Qsum_ge_elem (l : list Q) (x : Q) :
  (forall y, In y l -> 0 <= y) -> In x l -> x <= Qsum l.
Proof.
  induction l as [|y l IH]; intros Hnn Hin; [destruct Hin|].
  rewrite Qsum_cons.
  assert (0 <= Qsum l) by (apply Qsum_nonneg; intros; apply Hnn; now right).
  pose proof (Hnn y (or_introl eq_refl)).
  destruct Hin as [->|Hin].
  - lra.
  - assert (x <= Qsum l) by (apply IH; auto; intros; apply Hnn; now right).
    lra.
Qed.

(** X14. After normalization the cells of the reduced matrix are
    probabilities: when the full matrix has no negative cell, every cell
    of the returned matrix lies in [[0, 1]]. *)
Theorem less_words_matrix_cells_in_unit_interval
    (set_iter : list string -> list string) (self : DS_matrix)
    (word_set : list string) (new : DS_matrix) (M' : spmatrix) (r c : nat) :
  (forall l, NoDup (set_iter l)) ->
  (forall M i j, matrix self = Some M -> 0 <= cell M i j) ->
  less_words_matrix set_iter self word_set true = Ok new ->
  matrix new = Some M' ->
  (r < nrows M')%nat -> (c < ncols M')%nat ->
  0 <= cell M' r c /\ cell M' r c <= 1.
Proof.
  intros Hnd Hnn Hless HM' Hr Hc.
  apply less_words_matrix_parts in Hless.
  destruct Hless as (selfM & nm & newM & newM' & HM & Hcopy & Hnorm & ->).
  simpl in HM'. injection HM' as ->.
  apply copy_rows_spec in Hcopy; [|apply Hnd|simpl; tauto].
  destruct Hcopy as (_ & _ & _ & Hpos).
  assert (HnewM : forall i j, 0 <= cell newM i j).
  { apply Hpos; [intros i j; now apply (Hnn selfM)|].
    intros i j. simpl. apply Qle_refl. }
  destruct (normalize_matrix_spec newM M' HnewM Hnorm) as [K Hsum].
  rewrite (kp_rows _ _ K) in Hr. rewrite (kp_cols _ _ K) in Hc.
  split; [now apply (keeps_pattern_nonneg newM)|].
  destruct (in_dec Nat.eq_dec r (nonzero_rows newM c)) as [Hin|Hout].
  - rewrite <- (Hsum r c Hin Hc). unfold colsum.
    apply Qsum_ge_elem.
    + intros y Hy. apply in_map_iff in Hy. destruct Hy as (i & <- & Hi).
      apply in_seq in Hi. apply (keeps_pattern_nonneg newM); [assumption|].
      rewrite <- (kp_rows _ _ K). lia.
    + apply in_map_iff. exists r. split; [reflexivity|].
      apply in_seq. rewrite (kp_rows _ _ K). lia.
  - rewrite (kp_zero _ _ K r c Hr Hout). lra.
Qed.

Lemma less_words_matrix_cells_in_unit_interval_witness :
  0 <= cell reduced_ab_cells 2 2 /\ cell reduced_ab_cells 2 2 <= 1.
Proof.
  apply (less_words_matrix_cells_in_unit_interval insertion_order ab_model
           ["a"; "q"] reduced_ab reduced_ab_cells 2 2).
  - exact insertion_order_NoDup.
  - exact ab_model_nonneg.
  - vm_compute. reflexivity.
  - vm_compute. reflexivity.
  - vm_compute. lia.
  - vm_compute. lia.
Defined.

(* ----------------------------------------------------------------- *)
(** ** [reconstruct_sent]: what the search does and what it returns *)



Lemma remove_first_perm (w : string) (l : list string) :
  In w l -> Permutation l (w :: remove_first w l).
Proof.
  induction l as [|x l IH]; intros Hin; [destruct Hin|]. simpl.
  destruct (String.eqb_spec x w) as [->|Hne].
  - reflexivity.
  - destruct Hin as [Heq|Hin]; [congruence|].
    rewrite perm_swap. constructor. now apply IH.
Qed.

Lemma remove_used_rest (word_list : list string) :
  forall words rest,
    Permutation words (word_list ++ rest) ->
    Permutation (remove_used words word_list) rest.
Proof.
  unfold remove_used.
  induction word_list as [|w wl IH]; intros words rest Hperm; simpl.
  - exact Hperm.
  - apply IH. simpl in Hperm.
    assert (Hin : In w words).
    { eapply Permutation_in; [symmetry; exact Hperm | now left]. }
    apply (Permutation_cons_inv (a := w)).
    rewrite <- (remove_first_perm w words Hin). exact Hperm.
Qed.

(** X16. [words_left] is the multiset difference of the bag and the
    words already placed: for a partial sequence made of words of the
    bag, the sequence followed by [words_left] is a rearrangement of the
    bag, duplicates included. *)
Theorem remove_used_multiset_difference (words word_list rest : list string) :
  Permutation words (word_list ++ rest) ->
  Permutation (remove_used words word_list) rest
  /\ Permutation (word_list ++ remove_used words word_list) words.
Proof.
  intros Hperm.
  pose proof (remove_used_rest word_list words rest Hperm) as Hrest.
  split; [exact Hrest|].
  rewrite Hrest. now symmetry.
Qed.

Lemma remove_used_multiset_difference_witness :
  Permutation (remove_used ["a"; "b"; "a"; "c"] ["a"; "c"]) ["b"; "a"]
  /\ Permutation (["a"; "c"] ++ remove_used ["a"; "b"; "a"; "c"] ["a"; "c"])
                 ["a"; "b"; "a"; "c"].
Proof.
  apply (remove_used_multiset_difference ["a"; "b"; "a"; "c"] ["a"; "c"]
           ["b"; "a"]).
  simpl. apply perm_skip.
  apply (Permutation_cons_app ["c"] ["a"] "b"). apply perm_swap.
Defined.

Lemma remove_at_incl {A : Type} (i : nat) (l : list A) (x : A) :
  In x (remove_at i l) -> In x l.
Proof.
  unfold remove_at. intros H. apply in_app_or in H.
  destruct H as [H|H].
  - rewrite <- (firstn_skipn i l). apply in_or_app. now left.
  - rewrite <- (firstn_skipn (S i) l). apply in_or_app. now right.
Qed.

Lemma push_pruned_numeric (queue : list entry) (e : entry) :
  Forall numeric (queue ++ [e]) ->
  (Z.of_nat (List.length queue) <= 10000)%Z ->
  exists queue',
    push_pruned queue e = Ok queue'
    /\ Forall numeric queue'
    /\ (Z.of_nat (List.length queue') <= 10000)%Z.
Proof.
  intros Hnum Hlen.
  destruct (Z_le_gt_dec (Z.of_nat (List.length (queue ++ [e]))) 10000)
    as [Hle|Hgt].
  - exists (queue ++ [e]). repeat split; auto.
    unfold push_pruned.
    destruct (Z.gtb_spec (Z.of_nat (List.length (queue ++ [e]))) 10000);
      [lia | reflexivity].
  - destruct (push_pruned_prunes queue e Hnum Hgt)
      as (i & ws & p & _ & _ & _ & Hpush & Hl).
    exists (remove_at i (queue ++ [e])). repeat split; auto.
    + apply Forall_forall. intros t Ht. apply remove_at_incl in Ht.
      now apply (proj1 (Forall_forall _ _) Hnum).
    + rewrite Hl. exact Hlen.
Qed.

(** X17. The expansion loop keeps the queue within its bound: pushing any
    list of expansions of a numeric partial sequence onto a queue of
    numeric entries of length at most 10000 raises nothing and leaves a
    queue of numeric entries of length at most 10000. *)
Theorem push_expansions_bounded (word_list : list string) (p : Q)
    (best_expansions : list (string * Q)) (queue : list entry) :
  Forall numeric queue ->
  (Z.of_nat (List.length queue) <= 10000)%Z ->
  exists queue',
    push_expansions word_list (PyFloat p) best_expansions queue = Ok queue'
    /\ Forall numeric queue'
    /\ (Z.of_nat (List.length queue') <= 10000)%Z.
Proof.
  revert queue.
  induction best_expansions as [|[w x] rest IH]; intros queue Hnum Hlen;
    simpl.
  - exists queue. auto.
  - destruct (push_pruned_numeric queue (word_list ++ [w], PyFloat (p * x)))
      as (q1 & Hq1 & Hnum1 & Hlen1); auto.
    + apply Forall_app. split; [assumption|].
      constructor; [now exists (p * x) | constructor].
    + rewrite Hq1. cbn [bind]. now apply IH.
Qed.

Lemma full_queue_only_numeric : Forall numeric full_queue.
Proof.
  apply Forall_forall. intros t Ht. apply repeat_spec in Ht. subst t.
  now exists 1.
Qed.

Lemma push_expansions_bounded_witness :
  exists queue',
    push_expansions ["a"] (PyFloat (1#2)) [("b", 1#3); ("c", 1#4)] full_queue
    = Ok queue'
    /\ Forall numeric queue'
    /\ (Z.of_nat (List.length queue') <= 10000)%Z.
Proof.
  apply (push_expansions_bounded ["a"] (1#2) [("b", 1#3); ("c", 1#4)]
           full_queue).
  - exact full_queue_only_numeric.
  - unfold full_queue. rewrite repeat_length. lia.
Defined.

Lemma list_remove_incl {A : Type} (eqb : A -> A -> bool) (l : list A) :
  forall x l', list_remove eqb l x = Ok l' -> incl l' l.
Proof.
  induction l as [|y l IH]; intros x l'; simpl; [discriminate|].
  destruct (eqb y x).
  - intros H. injection H as <-. apply incl_tl, incl_refl.
  - destruct (list_remove eqb l x) as [l''| |] eqn:Hr; cbn [bind];
      try discriminate.
    intros H. injection H as <-.
    apply incl_cons; [now left|]. apply incl_tl. eapply IH; eassumption.
Qed.

Lemma push_pruned_incl (queue : list entry) (e : entry) (queue' : list entry) :
  push_pruned queue e = Ok queue' -> incl queue' (queue ++ [e]).
Proof.
  unfold push_pruned. destruct (_ >? _)%Z.
  - destruct (py_min entry_key _) as [r| |]; cbn [bind]; try discriminate.
    apply list_remove_incl.
  - intros H. injection H as <-. apply incl_refl.
Qed.

Lemma push_expansions_incl (word_list : list string) (p : pyval)
    (best : list (string * Q)) :
  forall queue queue',
    push_expansions word_list p best queue = Ok queue' ->
    forall t, In t queue' ->
              In t queue
              \/ exists w x, In (w, x) best /\ fst t = word_list ++ [w].
Proof.
  induction best as [|[w x] rest IH]; intros queue queue'; simpl.
  - intros H. injection H as <-. auto.
  - destruct (py_mul p (PyFloat x)) as [np| |]; cbn [bind]; try discriminate.
    destruct (push_pruned queue (word_list ++ [w], np)) as [q1| |] eqn:Hq1;
      cbn [bind]; try discriminate.
    intros H t Ht. destruct (IH _ _ H t Ht) as [Hin|(w' & x' & Hin & Hfst)].
    + apply (push_pruned_incl _ _ _ Hq1) in Hin.
      apply in_app_or in Hin. destruct Hin as [Hin|[<-|[]]]; [now left|].
      right. exists w, x. split; [now left | reflexivity].
    + right. exists w', x'. split; [now right | assumption].
Qed.

Lemma insert_desc_In (x y : string * Q) (l : list (string * Q)) :
  In x (insert_desc y l) -> x = y \/ In x l.
Proof.
  induction l as [|z l IH]; simpl.
  - intros [H|[]]; auto.
  - destruct (Qle_bool (snd z) (snd y)); simpl.
    + intros [H|[H|H]]; auto.
    + intros [H|H]; auto. destruct (IH H); auto.
Qed.

Lemma sort_desc_In (x : string * Q) (l : list (string * Q)) :
  In x (sort_desc l) -> In x l.
Proof.
  unfold sort_desc. induction l as [|y l IH]; simpl; [auto|].
  intros H. apply insert_desc_In in H. destruct H; auto.
Qed.

Lemma firstn_incl {A : Type} (n : nat) (l : list A) (x : A) :
  In x (firstn n l) -> In x l.
Proof.
  intros H. rewrite <- (firstn_skipn n l). apply in_or_app. now left.
Qed.

Lemma select_best_In (x : string * Q) (l : list (string * Q)) (k : Z) :
  In x (select_best l k) -> In x l.
Proof.
  unfold select_best, slice_to. destruct (_ <? _)%Z; [auto|].
  destruct (0 <=? k)%Z; intros H; apply firstn_incl in H;
    now apply sort_desc_In.
Qed.

Lemma mapM_expansions_In (m : DS_matrix) (last_word : string)
    (l : list string) :
  forall exps,
    mapM (fun w => prob <- get_bigram_prob m w last_word ;; Ok (w, prob)) l
    = Ok exps ->
    forall w x, In (w, x) exps -> In w l.
Proof.
  induction l as [|w l IH]; intros exps; simpl.
  - intros H. injection H as <-. intros ? ? [].
  - destruct (get_bigram_prob m w last_word) as [p| |]; cbn [bind];
      try discriminate.
    destruct (mapM _ l) as [rest| |] eqn:Hrest; cbn [bind]; try discriminate.
    intros H. injection H as <-. intros w' x [Heq|Hin].
    + injection Heq as <- <-. now left.
    + right. eapply IH; eauto.
Qed.

(** One turn of the search loop, with the kept expansions named. *)
Lemma beam_loop_step (set_iter : list string -> list string) (fuel : nat)
    (m : DS_matrix) (words : list string) (beam_width : Z)
    (word_list : list string) (prob_thus_far : pyval)
    (queue solutions : list entry) :
  beam_loop set_iter (S fuel) m words beam_width
            ((word_list, prob_thus_far) :: queue) solutions
  = (let words_left := remove_used words word_list in
     last_word <- list_last word_list ;;
     if (Z.of_nat (List.length word_list)
         <? Z.of_nat (List.length words) - 1)%Z
     then
       expansions <-
         mapM (fun w => prob <- get_bigram_prob m w last_word ;; Ok (w, prob))
              (set_iter words_left) ;;
       queue <- push_expansions word_list prob_thus_far
                  (select_best expansions beam_width) queue ;;
       beam_loop set_iter fuel m words beam_width queue solutions
     else
       w <- list_index words_left 0 ;;
       p <- get_bigram_prob m w last_word ;;
       new_prob <- py_mul prob_thus_far (PyFloat p) ;;
       p_end <- get_bigram_prob m END w ;;
       new_prob <- py_mul new_prob (PyFloat p_end) ;;
       beam_loop set_iter fuel m words beam_width queue
                 (solutions ++ [(word_list ++ [w], new_prob)])).
Proof.
  reflexivity.
Qed.

Lemma beam_loop_solutions (set_iter : list string -> list string)
    (m : DS_matrix) (words : list string) (beam_width : Z) :
  (forall l x, In x (set_iter l) -> In x l) ->
  forall fuel queue solutions solutions',
    Forall (partial_ordering words) queue ->
    Forall (fun t : entry => Permutation (fst t) words) solutions ->
    beam_loop set_iter fuel m words beam_width queue solutions
    = Ok solutions' ->
    Forall (fun t : entry => Permutation (fst t) words) solutions'.
Proof.
  intros Hset. induction fuel as [|fuel IH];
    intros queue solutions solutions' Hq Hs.
  - destruct queue as [|[wl p] queue]; simpl; [|discriminate].
    intros H. now injection H as <-.
  - destruct queue as [|[wl p] queue].
    { simpl. intros H. now injection H as <-. }
    rewrite beam_loop_step. cbv zeta.
    inversion Hq as [|? ? [rest Hrest] Hq']; subst. simpl in Hrest.
    pose proof (remove_used_rest wl words rest Hrest) as Hleft.
    destruct (list_last wl) as [last_word| |]; cbn [bind]; try discriminate.
    destruct (_ <? _)%Z eqn:Hcmp.
    + destruct (mapM _ (set_iter (remove_used words wl))) as [exps| |] eqn:He;
        cbn [bind]; try discriminate.
      destruct (push_expansions wl p (select_best exps beam_width) queue)
        as [queue1| |] eqn:Hpush; cbn [bind]; try discriminate.
      apply IH; [|assumption].
      apply Forall_forall. intros t Ht.
      destruct (push_expansions_incl _ _ _ _ _ Hpush t Ht)
        as [Hin|(w & x & Hin & Hfst)].
      * now apply (proj1 (Forall_forall _ _) Hq').
      * apply select_best_In in Hin.
        apply (mapM_expansions_In _ _ _ _ He) in Hin.
        apply Hset in Hin.
        assert (Hrin : In w rest) by (eapply Permutation_in; eassumption).
        apply in_split in Hrin. destruct Hrin as (r1 & r2 & ->).
        exists (r1 ++ r2). rewrite Hfst, Hrest, <- app_assoc. simpl.
        apply Permutation_app_head. symmetry. apply Permutation_middle.
    + unfold list_index.
      destruct (remove_used words wl) as [|w tl] eqn:Hwl; simpl;
        try discriminate.
      destruct (get_bigram_prob m w last_word) as [x| |]; cbn [bind];
        try discriminate.
      destruct (py_mul p (PyFloat x)) as [np| |]; cbn [bind];
        try discriminate.
      destruct (get_bigram_prob m END w) as [y| |]; cbn [bind];
        try discriminate.
      destruct (py_mul np (PyFloat y)) as [np'| |]; cbn [bind];
        try discriminate.
      apply IH; [assumption|].
      apply Forall_app. split; [assumption|].
      constructor; [|constructor]. simpl.
      apply Z.ltb_ge in Hcmp.
      pose proof (Permutation_length Hrest) as Hl1.
      pose proof (Permutation_length Hleft) as Hl2.
      rewrite length_app in Hl1. simpl in Hl2.
      assert (Htl : tl = []).
      { destruct tl; [reflexivity|]. simpl in Hl2. lia. }
      subst tl. rewrite Hrest. apply Permutation_app_head.
      now symmetry.
Qed.

(** X18. The search loop only records orderings of the bag: started from
    a queue of partial sequences that use words of the bag no more often
    than the bag holds them, every solution it returns is a rearrangement
    of the whole bag, duplicates included. *)
Theorem beam_loop_records_orderings (set_iter : list string -> list string)
    (fuel : nat) (m : DS_matrix) (words : list string) (beam_width : Z)
    (queue solutions : list entry) :
  (forall l x, In x (set_iter l) -> In x l) ->
  Forall (partial_ordering words) queue ->
  beam_loop set_iter fuel m words beam_width queue [] = Ok solutions ->
  Forall (fun t : entry => Permutation (fst t) words) solutions.
Proof.
  intros Hset Hq H.
  eapply beam_loop_solutions; eauto.
Qed.

Lemma beam_loop_records_orderings_witness :
  Forall (fun t : entry => Permutation (fst t) ["a"; "b"])
         [(["a"; "b"], PyFloat ((3#5) * (7#10) * (4#5)))].
Proof.
  apply (beam_loop_records_orderings insertion_order 5 ab_model ["a"; "b"] 3
           [(["a"], PyFloat (3#5))]).
  - intros l x Hx. now apply insertion_order_In.
  - constructor; [|constructor]. exists ["b"]. reflexivity.
  - reflexivity.
Defined.

(* ----------------------------------------------------------------- *)
(** ** The beam: which expansions are kept *)

Lemma insert_desc_perm (x : string * Q) (l : list (string * Q)) :
  Permutation (insert_desc x l) (x :: l).
Proof.
  induction l as [|y l IH]; simpl; [reflexivity|].
  destruct (Qle_bool (snd y) (snd x)); [reflexivity|].
  rewrite IH. apply perm_swap.
Qed.

Lemma sort_desc_perm (l : list (string * Q)) : Permutation (sort_desc l) l.
Proof.
  unfold sort_desc. induction l as [|x l IH]; simpl; [reflexivity|].
  rewrite insert_desc_perm. now constructor.
Qed.

Lemma insert_desc_sorted (x : string * Q) (l : list (string * Q)) :
  StronglySorted desc l -> StronglySorted desc (insert_desc x l).
Proof.
  induction l as [|y l IH]; intros Hs; simpl.
  - repeat constructor.
  - inversion Hs as [|? ? Hs' Hall]; subst.
    destruct (Qle_bool (snd y) (snd x)) eqn:Hcmp.
    + apply Qle_bool_iff in Hcmp. constructor; [assumption|].
      constructor; [exact Hcmp|].
      apply Forall_forall. intros z Hz.
      pose proof (proj1 (Forall_forall _ _) Hall z Hz) as Hzy.
      unfold desc in *. lra.
    + constructor; [now apply IH|].
      apply Forall_forall. intros z Hz. apply insert_desc_In in Hz.
      destruct Hz as [->|Hz].
      * unfold desc.
        assert (~ snd y <= snd x).
        { intros Hle. apply Qle_bool_iff in Hle. congruence. }
        lra.
      * exact (proj1 (Forall_forall _ _) Hall z Hz).
Qed.

Lemma sort_desc_sorted (l : list (string * Q)) :
  StronglySorted desc (sort_desc l).
Proof.
  unfold sort_desc. induction l as [|x l IH]; simpl.
  - constructor.
  - now apply insert_desc_sorted.
Qed.

Lemma sorted_prefix_dominates (l1 l2 : list (string * Q)) :
  StronglySorted desc (l1 ++ l2) ->
  forall x y, In x l1 -> In y l2 -> snd y <= snd x.
Proof.
  induction l1 as [|z l1 IH]; intros Hs x y Hx Hy; [destruct Hx|].
  simpl in Hs. inversion Hs as [|? ? Hs' Hall]; subst.
  destruct Hx as [->|Hx].
  - apply (proj1 (Forall_forall _ _) Hall). apply in_or_app. now right.
  - now apply IH.
Qed.

(** X19. The beam keeps the best expansions: the kept ones together with
    the dropped ones are the candidates, no dropped candidate has a
    higher probability than a kept one, and for a beam width [k >= 0]
    at most [k] are kept (exactly [k] when there are at least [k]
    candidates). *)
Theorem select_best_spec (expansions : list (string * Q)) (beam_width : Z) :
  exists dropped,
    Permutation expansions (select_best expansions beam_width ++ dropped)
    /\ (forall x y, In x (select_best expansions beam_width) ->
                    In y dropped -> snd y <= snd x)
    /\ ((0 <= beam_width)%Z ->
        (Z.of_nat (List.length (select_best expansions beam_width))
         <= beam_width)%Z)
    /\ ((0 <= beam_width <= Z.of_nat (List.length expansions))%Z ->
        Z.of_nat (List.length (select_best expansions beam_width))
        = beam_width).
Proof.
  unfold select_best.
  destruct (Z.ltb_spec (Z.of_nat (List.length expansions)) beam_width)
    as [Hlt|Hge].
  - exists []. rewrite app_nil_r. repeat split; auto; try lia.
    intros x y _ [].
  - unfold slice_to.
    pose proof (Permutation_length (sort_desc_perm expansions)) as Hlen.
    set (n := if (0 <=? beam_width)%Z then Z.to_nat beam_width
              else Z.to_nat (Z.of_nat (List.length (sort_desc expansions))
                             + beam_width)).
    replace (if (0 <=? beam_width)%Z
             then firstn (Z.to_nat beam_width) (sort_desc expansions)
             else firstn (Z.to_nat
                            (Z.of_nat (List.length (sort_desc expansions))
                             + beam_width)) (sort_desc expansions))
      with (firstn n (sort_desc expansions))
      by (unfold n; destruct (0 <=? beam_width)%Z; reflexivity).
    exists (skipn n (sort_desc expansions)).
    rewrite firstn_skipn. split; [|split; [|split]].
    + symmetry. apply sort_desc_perm.
    + apply sorted_prefix_dominates. rewrite firstn_skipn.
      apply sort_desc_sorted.
    + intros Hk. rewrite length_firstn. unfold n.
      destruct (Z.leb_spec 0 beam_width); lia.
    + intros Hk. rewrite length_firstn. unfold n.
      destruct (Z.leb_spec 0 beam_width); lia.
Qed.

(* ----------------------------------------------------------------- *)
(** ** [pmi_matrix] *)

Section PMIFacts.
Variable log2 : Q -> Q.

Lemma ppmi_value_nonneg (pcw pw : Q) : 0 <= ppmi_value log2 pcw pw.
Proof.
  unfold ppmi_value. cbv zeta.
  destruct (negb (Qle_bool _ 0)); [|apply Qle_refl].
  destruct (Qle_bool 0 (log2 _)) eqn:H; simpl; [|apply Qle_refl].
  now apply Qle_bool_iff.
Qed.

Lemma dict_get_In_keys {V : Type} (d : list (string * V)) (k : string)
    (v : V) :
  dict_get String.eqb d k = Some v -> In k (dict_keys d).
Proof.
  intros H. apply dict_mem_In. apply dict_mem_get. eauto.
Qed.

Lemma pmi_inner_spec (self : DS_matrix) (M : spmatrix) (posc : nat)
    (words : list string) :
  forall P P',
    pmi_inner log2 self (map (fun i => cell M i posc) (seq 0 (nrows M)))
              posc words P = Ok P' ->
    nrows P' = nrows P /\ ncols P' = ncols P
    /\ (forall r c, cell P' r c = cell P r c \/ ppmi_cell log2 self M P' r c)
    /\ (forall word2 c,
           In word2 words ->
           dict_get String.eqb (vocab_order self) word2 = Some c ->
           ppmi_cell log2 self M P' posc c
           /\ (posc < nrows P)%nat /\ (c < ncols P)%nat /\ (c < nrows M)%nat
           /\ exists pw,
               dict_get String.eqb (unigram_probs self) word2 = Some pw).
Proof.
  induction words as [|word2 rest IH]; intros P P'; simpl.
  - intros H. injection H as <-.
    split; [reflexivity|]. split; [reflexivity|]. split; [now left|].
    intros ? ? [].
  - unfold dict_index.
    destruct (dict_get String.eqb (unigram_probs self) word2) as [pw|] eqn:Hpw;
      cbn [bind]; try discriminate.
    destruct (dict_get String.eqb (vocab_order self) word2) as [posw|] eqn:Hp;
      cbn [bind]; try discriminate.
    unfold list_index. rewrite nth_error_map, nth_error_seq.
    destruct (posw <? nrows M)%nat eqn:Hrow; simpl; try discriminate.
    unfold mat_set.
    destruct ((posc <? nrows P)%nat && (posw <? ncols P)%nat) eqn:Hin;
      cbn [bind]; try discriminate.
    apply andb_prop in Hin. destruct Hin as [Hr Hc].
    apply Nat.ltb_lt in Hrow, Hr, Hc.
    intros H. apply IH in H. simpl in H.
    destruct H as (Hnr & Hnc & Hcells & Hdone).
    assert (Hwritten : ppmi_cell log2 self M P' posc posw).
    { destruct (Hcells posc posw) as [Heq|Hgood]; [|assumption].
      exists word2, pw. repeat split; auto.
      rewrite Heq. simpl. now rewrite !Nat.eqb_refl. }
    split; [assumption|]. split; [assumption|]. split.
    + intros r c. destruct (Hcells r c) as [Heq|Hgood]; [|now right].
      simpl in Heq.
      destruct (Nat.eq_dec r posc) as [Hrp|Hrp];
        [|rewrite (proj2 (Nat.eqb_neq _ _) Hrp) in Heq; now left].
      destruct (Nat.eq_dec c posw) as [Hcp|Hcp].
      * right. rewrite Hrp, Hcp. exact Hwritten.
      * rewrite (proj2 (Nat.eqb_neq _ _) Hcp), andb_false_r in Heq.
        now left.
    + intros w c [<-|Hw] Hwc.
      * assert (Hcp : c = posw) by congruence. rewrite Hcp.
        repeat split; eauto.
      * destruct (Hdone w c Hw Hwc) as (H1 & H2 & H3 & H4 & H5).
        simpl in H2, H3. repeat split; auto.
Qed.

Lemma ppmi_cell_same (self : DS_matrix) (M P P' : spmatrix) (r c : nat) :
  cell P' r c = cell P r c ->
  ppmi_cell log2 self M P r c -> ppmi_cell log2 self M P' r c.
Proof.
  intros Heq (w & pw & H1 & H2 & H3). exists w, pw. repeat split; auto.
  congruence.
Qed.

Lemma pmi_outer_spec (self : DS_matrix) (M : spmatrix)
    (words1 : list string) :
  forall P P',
    pmi_outer log2 self M words1 P = Ok P' ->
    nrows P' = nrows P /\ ncols P' = ncols P
    /\ (forall r c, cell P' r c = cell P r c \/ ppmi_cell log2 self M P' r c)
    /\ (forall word1 word2 r c,
           In word1 words1 ->
           dict_get String.eqb (vocab_order self) word1 = Some r ->
           dict_get String.eqb (vocab_order self) word2 = Some c ->
           ppmi_cell log2 self M P' r c
           /\ (r < ncols M)%nat /\ (r < nrows P)%nat
           /\ (c < ncols P)%nat /\ (c < nrows M)%nat
           /\ exists pw,
               dict_get String.eqb (unigram_probs self) word2 = Some pw).
Proof.
  induction words1 as [|word1 rest IH]; intros P P'; simpl.
  - intros H. injection H as <-.
    split; [reflexivity|]. split; [reflexivity|]. split; [now left|].
    intros ? ? ? ? [].
  - unfold dict_index.
    destruct (dict_get String.eqb (vocab_order self) word1) as [posc|] eqn:Hp;
      cbn [bind]; try discriminate.
    unfold getcol. destruct (posc <? ncols M)%nat eqn:Hcol; cbn [bind];
      try discriminate.
    apply Nat.ltb_lt in Hcol.
    destruct (pmi_inner log2 self _ posc (get_words self) P) as [P1| |]
      eqn:Hinner; cbn [bind]; try discriminate.
    apply pmi_inner_spec in Hinner.
    destruct Hinner as (Hnr1 & Hnc1 & Hcells1 & Hdone1).
    intros H. apply IH in H. destruct H as (Hnr & Hnc & Hcells & Hdone).
    split; [congruence|]. split; [congruence|]. split.
    + intros r c. destruct (Hcells r c) as [Heq|Hgood]; [|now right].
      destruct (Hcells1 r c) as [Heq1|Hgood1].
      * left. congruence.
      * right. eapply ppmi_cell_same; eassumption.
    + intros w1 w2 r c [<-|Hw1] Hr Hc.
      * assert (Hrp : r = posc) by congruence. rewrite Hrp.
        assert (Hw2 : In w2 (get_words self)).
        { eapply dict_get_In_keys; eassumption. }
        destruct (Hdone1 w2 c Hw2 Hc) as (H1 & H2 & H3 & H4 & H5).
        repeat split; auto.
        destruct (Hcells posc c) as [Heq|Hgood]; [|assumption].
        eapply ppmi_cell_same; eassumption.
      * destruct (Hdone w1 w2 r c Hw1 Hr Hc) as (H1 & H2 & H3 & H4 & H5 & H6).
        repeat split; auto; congruence.
Qed.

Lemma pmi_matrix_parts (self new : DS_matrix) :
  pmi_matrix log2 self = Ok new ->
  exists M P,
    matrix self = Some M
    /\ pmi_outer log2 self M (get_words self)
                 (lil_matrix (nrows M, ncols M)) = Ok P
    /\ new = {| matrix := Some P; vocab_order := vocab_order self;
                unigram_probs := unigram_probs self |}.
Proof.
  unfold pmi_matrix, matrix_attr.
  destruct (matrix self) as [M|]; cbn [bind]; try discriminate.
  destruct (pmi_outer log2 self M _ _) as [P| |] eqn:Hout; cbn [bind];
    try discriminate.
  intros H. injection H as <-. eauto.
Qed.

(** X20. The positive PMI model keeps the vocabulary, the unigram table
    and the shape of the matrix, and none of its cells is negative,
    whatever the logarithm answers. *)
Theorem pmi_matrix_nonnegative (self new : DS_matrix) :
  pmi_matrix log2 self = Ok new ->
  vocab_order new = vocab_order self
  /\ unigram_probs new = unigram_probs self
  /\ exists M P,
      matrix self = Some M /\ matrix new = Some P
      /\ nrows P = nrows M /\ ncols P = ncols M
      /\ forall r c, 0 <= cell P r c.
Proof.
  intros H. apply pmi_matrix_parts in H.
  destruct H as (M & P & HM & Hout & ->). simpl.
  split; [reflexivity|]. split; [reflexivity|].
  exists M, P. apply pmi_outer_spec in Hout.
  destruct Hout as (Hnr & Hnc & Hcells & _). simpl in Hnr, Hnc.
  repeat split; auto.
  intros r c. destruct (Hcells r c) as [Heq|(w & pw & _ & _ & Heq)].
  - rewrite Heq. simpl. apply Qle_refl.
  - rewrite Heq. apply ppmi_value_nonneg.
Qed.

(** X21. The positive PMI matrix is filled across the diagonal: for two
    words of the vocabulary, of row numbers [r] and [c], its cell
    [(r, c)] is the positive PMI computed from the cell [(c, r)] of the
    matrix and from the unigram probability of a word of row number
    [c]. *)
Theorem pmi_matrix_cells (self new : DS_matrix) (word1 word2 : string)
    (r c : nat) :
  pmi_matrix log2 self = Ok new ->
  dict_get String.eqb (vocab_order self) word1 = Some r ->
  dict_get String.eqb (vocab_order self) word2 = Some c ->
  exists M P,
    matrix self = Some M /\ matrix new = Some P
    /\ ppmi_cell log2 self M P r c.
Proof.
  intros H Hr Hc. apply pmi_matrix_parts in H.
  destruct H as (M & P & HM & Hout & ->). simpl.
  exists M, P. apply pmi_outer_spec in Hout.
  destruct Hout as (_ & _ & _ & Hdone).
  assert (Hw1 : In word1 (get_words self)).
  { eapply dict_get_In_keys; eassumption. }
  destruct (Hdone word1 word2 r c Hw1 Hr Hc) as (Hgood & _).
  auto.
Qed.

(** X22. [pmi_matrix] completes only on a model whose matrix covers the
    vocabulary both ways and whose unigram table is complete: every row
    number of a word is below the number of rows and the number of
    columns, and every word has a unigram probability; otherwise the
    call raises. *)
Theorem pmi_matrix_requirements (self new : DS_matrix) (word : string)
    (pos : nat) :
  pmi_matrix log2 self = Ok new ->
  dict_get String.eqb (vocab_order self) word = Some pos ->
  exists M,
    matrix self = Some M
    /\ (pos < nrows M)%nat /\ (pos < ncols M)%nat
    /\ exists pw, dict_get String.eqb (unigram_probs self) word = Some pw.
Proof.
  intros H Hpos. apply pmi_matrix_parts in H.
  destruct H as (M & P & HM & Hout & ->).
  exists M. apply pmi_outer_spec in Hout.
  destruct Hout as (_ & _ & _ & Hdone).
  assert (Hw : In word (get_words self)).
  { eapply dict_get_In_keys; eassumption. }
  destruct (Hdone word word pos pos Hw Hpos Hpos)
    as (_ & H1 & H2 & _ & _ & H3).
  simpl in H2. auto.
Qed.
End PMIFacts.

Lemma pmi_matrix_nonnegative_witness :
  vocab_order pmi_of_model = vocab_order pmi_model
  /\ unigram_probs pmi_of_model = unigram_probs pmi_model
  /\ exists M P,
      matrix pmi_model = Some M /\ matrix pmi_of_model = Some P
      /\ nrows P = nrows M /\ ncols P = ncols M
      /\ forall r c, 0 <= cell P r c.
Proof.
  apply (pmi_matrix_nonnegative sample_log2 pmi_model pmi_of_model).
  vm_compute. reflexivity.
Defined.

Lemma pmi_matrix_cells_witness :
  exists M P,
    matrix pmi_model = Some M /\ matrix pmi_of_model = Some P
    /\ ppmi_cell sample_log2 pmi_model M P 1 0.
Proof.
  apply (pmi_matrix_cells sample_log2 pmi_model pmi_of_model "y" "x" 1 0).
  - vm_compute. reflexivity.
  - reflexivity.
  - reflexivity.
Defined.

Lemma pmi_matrix_requirements_witness :
  exists M,
    matrix pmi_model = Some M
    /\ (1 < nrows M)%nat /\ (1 < ncols M)%nat
    /\ exists pw,
        dict_get String.eqb (unigram_probs pmi_model) "y" = Some pw.
Proof.
  apply (pmi_matrix_requirements sample_log2 pmi_model pmi_of_model "y" 1).
  - vm_compute. reflexivity.
  - reflexivity.
Defined.

(* ----------------------------------------------------------------- *)
(** ** Two more facts on probabilities and on the seed *)

Lemma Qprod_from (ps : list Q) :
  forall a, fold_left Qmult ps a == a * Qprod ps.
Proof.
  unfold Qprod. induction ps as [|y ps IH]; intros a; simpl.
  - ring.
  - rewrite (IH (a * y)), (IH (1 * y)). ring.
Qed.

Lemma Qprod_zero (ps : list Q) (x : Q) :
  In x ps -> x == 0 -> Qprod ps == 0.
Proof.
  induction ps as [|y ps IH]; intros Hin Hx; [destruct Hin|].
  unfold Qprod. simpl. rewrite Qprod_from.
  destruct Hin as [->|Hin].
  - rewrite Hx. ring.
  - rewrite (IH Hin Hx). ring.
Qed.

(** X23. A single zero bigram makes the sentence probability zero: when
    the bigrams along [START$_], the known words and [END$_] can all be
    looked up and one of them is zero, [get_sentence_prob] returns
    zero. *)
Theorem get_sentence_prob_zero_bigram (m : DS_matrix) (s : list string)
    (ps : list Q) (x : Q) :
  adjacent_bigrams m START (filter (in_vocab m) s ++ [END]) = Ok ps ->
  In x ps -> x == 0 ->
  exists p, get_sentence_prob m s = Ok p /\ p == 0.
Proof.
  intros Hps Hin Hx. unfold get_sentence_prob.
  rewrite sentence_prob_loop_adjacent, Hps. cbn [bind].
  eexists. split; [reflexivity|]. now apply (Qprod_zero ps x).
Qed.

Lemma get_sentence_prob_zero_bigram_witness :
  exists p, get_sentence_prob ab_model ["b"; "b"] = Ok p /\ p == 0.
Proof.
  apply (get_sentence_prob_zero_bigram ab_model ["b"; "b"]
           [2#5; 0; 4#5] 0).
  - reflexivity.
  - right. now left.
  - reflexivity.
Defined.

(** X24. The queue is never seeded with a probability: [seed_queue]
    returns only for a bag of exactly one word, whose start bigram can
    be looked up, and the seed then carries [None]; for the empty bag
    and for every bag of two or more words it raises. *)
Theorem seed_queue_returns_none (m : DS_matrix) (words : list string)
    (queue : list entry) :
  seed_queue m words = Ok queue ->
  exists w,
    words = [w] /\ queue = [([w], PyNone)]
    /\ exists p, get_bigram_prob m w START = Ok p.
Proof.
  destruct words as [|a [|b l]].
  - discriminate.
  - rewrite seed_queue_single.
    destruct (get_bigram_prob m a START) as [p| |] eqn:Hp; cbn [bind];
      try discriminate.
    intros H. injection H as <-. exists a. eauto.
  - destruct (seed_queue_several m a b l) as [e He]. rewrite He.
    discriminate.
Qed.

Lemma seed_queue_returns_none_witness :
  exists w,
    ["a"] = [w] /\ [(["a"], PyNone)] = [([w], PyNone)]
    /\ exists p, get_bigram_prob ab_model w START = Ok p.
Proof.
  apply (seed_queue_returns_none ab_model ["a"] [(["a"], PyNone)]).
  reflexivity.
Defined.
